(** * NFD face management: TcpFactory and FaceTable

    A shallow embedding of [daemon/face/tcp-factory.cpp] and of the
    face table ([FaceTable::add], [FaceTable::remove]), with the
    properties of the face-management design stated over it.

    Logging statements ([NFD_LOG_TRACE], [NFD_LOG_INFO], [NFD_LOG_WARN])
    touch no factory or table state and are left out of the embedding. *)

From stdpp Require Import sorting gmap strings list fin_maps functions.

Local Open Scope N_scope.

(** ** Addresses and endpoints (boost::asio::ip) *)

Module ip.

(** [address_v4]: the address as its 32-bit host-order value
    ([to_ulong]). *)
Definition address_v4 := N.

(** [address_v6]: the sixteen address bytes read as one big-endian
    number, and the scope id. *)
Record address_v6 := mk_v6 { v6_bytes : N; v6_scope_id : N }.

(** [address]: a tagged union of the two families. *)
Inductive address :=
| V4 (a : address_v4)
| V6 (a : address_v6).

Definition v4_any : address_v4 := 0.
Definition v6_any : address_v6 := mk_v6 0 0.

Definition is_v4 (a : address) : bool :=
  match a with V4 _ => true | V6 _ => false end.
Definition is_v6 (a : address) : bool :=
  match a with V4 _ => false | V6 _ => true end.

(** 224.0.0.0/4 *)
Definition v4_is_multicast (a : address_v4) : bool :=
  N.land a 0xF0000000 =? 0xE0000000.
(** 127.0.0.0/8 *)
Definition v4_is_loopback (a : address_v4) : bool :=
  N.land a 0xFF000000 =? 0x7F000000.
(** ff00::/8: the first of the sixteen bytes is 0xff. *)
Definition v6_is_multicast (a : address_v6) : bool :=
  N.shiftr (v6_bytes a) 120 =? 0xFF.
(** ::1 *)
Definition v6_is_loopback (a : address_v6) : bool :=
  v6_bytes a =? 1.

Definition is_multicast (a : address) : bool :=
  match a with
  | V4 a => v4_is_multicast a
  | V6 a => v6_is_multicast a
  end.
Definition is_loopback (a : address) : bool :=
  match a with
  | V4 a => v4_is_loopback a
  | V6 a => v6_is_loopback a
  end.

#[global] Instance address_v6_eq_dec : EqDecision address_v6.
Proof. solve_decision. Defined.
#[global] Instance address_eq_dec : EqDecision address.
Proof. solve_decision. Defined.

#[global] Instance address_v6_countable : Countable address_v6 :=
  inj_countable' (λ a, (v6_bytes a, v6_scope_id a))
                 (λ p, mk_v6 p.1 p.2)
                 (λ a, match a with mk_v6 _ _ => eq_refl end).

#[global] Instance address_countable : Countable address :=
  inj_countable' (λ a, match a with V4 x => inl x | V6 x => inr x end)
                 (λ s, match s with inl x => V4 x | inr x => V6 x end)
                 (λ a, match a with V4 _ => eq_refl | V6 _ => eq_refl end).

End ip.

(** [tcp::Endpoint]: an address and a 16-bit port. *)
Record Endpoint := mkEndpoint { address : ip.address; port : N }.

#[global] Instance Endpoint_eq_dec : EqDecision Endpoint.
Proof. solve_decision. Defined.

#[global] Instance Endpoint_countable : Countable Endpoint :=
  inj_countable' (λ e, (address e, port e))
                 (λ p, mkEndpoint p.1 p.2)
                 (λ e, match e with mkEndpoint _ _ => eq_refl end).

(** [tcp::Endpoint(ip::tcp::v4(), port)] and
    [tcp::Endpoint(ip::tcp::v6(), port)]: the wildcard-any address of
    the family. *)
Definition Endpoint_v4 (p : N) : Endpoint := mkEndpoint (ip.V4 ip.v4_any) p.
Definition Endpoint_v6 (p : N) : Endpoint := mkEndpoint (ip.V6 ip.v6_any) p.

(** The test of the channel-selection loop: both addresses are v4, or
    both are v6. *)
Definition same_family (a b : ip.address) : bool :=
  (ip.is_v4 a && ip.is_v4 b) || (ip.is_v6 a && ip.is_v6 b).

(** *** The order of endpoints

    [operator<] on endpoints compares the addresses and then the
    ports; on addresses, the family (v4 before v6), then the value
    (for v6: the bytes, then the scope id).  The order is written on
    the four numbers it reads. *)

Definition Endpoint_key (e : Endpoint) : N * N * N * N :=
  match address e with
  | ip.V4 a => (0, a, 0, port e)
  | ip.V6 a => (1, ip.v6_bytes a, ip.v6_scope_id a, port e)
  end.

Definition key_lt (x y : N * N * N * N) : Prop :=
  let '(a1, b1, c1, d1) := x in
  let '(a2, b2, c2, d2) := y in
  a1 < a2 ∨ (a1 = a2 ∧ (b1 < b2 ∨ (b1 = b2 ∧ (c1 < c2 ∨ (c1 = c2 ∧ d1 < d2))))).

Definition key_compare (x y : N * N * N * N) : comparison :=
  let '(a1, b1, c1, d1) := x in
  let '(a2, b2, c2, d2) := y in
  match a1 ?= a2 with
  | Eq => match b1 ?= b2 with
          | Eq => match c1 ?= c2 with
                  | Eq => d1 ?= d2
                  | c => c
                  end
          | c => c
          end
  | c => c
  end.

Definition Endpoint_lt (e1 e2 : Endpoint) : Prop :=
  key_lt (Endpoint_key e1) (Endpoint_key e2).

Definition Endpoint_compare (e1 e2 : Endpoint) : comparison :=
  key_compare (Endpoint_key e1) (Endpoint_key e2).

(** ** [std::map<tcp::Endpoint, V>]

    The map keeps its entries in key order; iteration visits them in
    that order, and [find] and [operator[]] search by the order. *)

Module std_map.

Abbreviation t V := (list (Endpoint * V)) (only parsing).

Section std_map.
Context {V : Type}.

Definition empty : t V := [].

(** [m.find(k)], [None] for [m.end()]. *)
Fixpoint find (k : Endpoint) (m : t V) : option V :=
  match m with
  | [] => None
  | (k', v) :: m' =>
      match Endpoint_compare k k' with
      | Eq => Some v
      | Lt => None
      | Gt => find k m'
      end
  end.

(** [m[k] = v] *)
Fixpoint assign (k : Endpoint) (v : V) (m : t V) : t V :=
  match m with
  | [] => [(k, v)]
  | (k', v') :: m' =>
      match Endpoint_compare k k' with
      | Eq => (k', v) :: m'
      | Lt => (k, v) :: (k', v') :: m'
      | Gt => (k', v') :: assign k v m'
      end
  end.

Definition keys (m : t V) : list Endpoint := m.*1.

(** The representation invariant: keys strictly increasing. *)
Definition ordered (m : t V) : Prop := StronglySorted Endpoint_lt (keys m).

(** How many entries are keyed by [k]. *)
Definition count (k : Endpoint) (m : t V) : nat :=
  length (filter (λ e, e.1 = k) m).

End std_map.
End std_map.

(** ** A state monad with exceptions

    Member functions that mutate the object they are called on, and
    may throw, are functions from the state before the call to a
    result (a value or the exception thrown) and the state at that
    point. *)

Inductive Result (E A : Type) :=
| Ret (a : A)
| Throw (e : E).
Arguments Ret {E A} a.
Arguments Throw {E A} e.

Definition M (S E A : Type) : Type := S → Result E A * S.

Section monad.
Context {S E : Type}.

#[global] Instance M_ret : MRet (M S E) := λ A a s, (Ret a, s).

#[global] Instance M_bind : MBind (M S E) := λ A B f m s,
  match m s with
  | (Ret a, s') => f a s'
  | (Throw e, s') => (Throw e, s')
  end.

Definition throw {A} (e : E) : M S E A := λ s, (Throw e, s).
Definition get : M S E S := λ s, (Ret s, s).
Definition modify (f : S → S) : M S E () := λ s, (Ret (), f s).
Definition when (b : bool) (m : M S E ()) : M S E () :=
  if b then m else mret ().

End monad.

(** A computation that returns, whatever the state. *)
Definition returns {S E A} (m : M S E A) : Prop :=
  ∀ s, ∃ a s', m s = (Ret a, s').

(** A computation that keeps an invariant of the state. *)
Definition preserves {S E A} (P : S → Prop) (m : M S E A) : Prop :=
  ∀ s, P s → P (m s).2.

(** A computation that moves the state along a relation. *)
Definition advances {S E A} (R : S → S → Prop) (m : M S E A) : Prop :=
  ∀ s, R s (m s).2.

(** ** The TCP factory *)

Module TcpFactory.

(** Callbacks ([FaceCreatedCallback], [FaceCreationFailedCallback])
    are opaque to the factory, which only passes them on. *)
Definition Callback := nat.

(** A [shared_ptr<TcpChannel>]: the identity of a channel object. *)
Definition ChannelPtr := nat.

(** [ndn::nfd::FacePersistency] *)
Inductive FacePersistency :=
| FACE_PERSISTENCY_PERSISTENT
| FACE_PERSISTENCY_ON_DEMAND
| FACE_PERSISTENCY_PERMANENT.

#[global] Instance FacePersistency_eq_dec : EqDecision FacePersistency.
Proof. solve_decision. Defined.

(** What [createFace] reads of a [FaceUri]. *)
Record FaceUri := mkFaceUri {
  getHost : string;
  getPort : string;
  isCanonical : bool
}.

(** What the factory reads of a [NetworkInterfaceInfo]. *)
Record NetworkInterfaceInfo := mkNic {
  ipv4Addresses : list ip.address_v4;
  ipv6Addresses : list ip.address_v6
}.

(** A configuration section: the (key, value) pairs in file order. *)
Definition ConfigSection := list (string * string).

(** [FaceSystem::ConfigContext] *)
Record ConfigContext := mkContext {
  isDryRun : bool;
  addFace : Callback
}.

(** [ConfigFile::Error] with its message. *)
Inductive Exception :=
| ConfigFile_Error (what : string).

(** The functions the factory calls that are declared outside of
    it.  A parser gives [None] (or the message of its
    [ConfigFile::Error]) where the C++ function throws.
    [listNetworkInterfaces] is what one enumeration returns; where
    calls at different times are compared, each call has a platform
    of its own. *)
Class Platform := {
  (** [ip::address::from_string] *)
  from_string : string → option ip.address;
  (** [boost::lexical_cast<uint16_t>] *)
  lexical_cast_uint16 : string → option N;
  (** [ConfigFile::parseYesNo(pair, sectionName)] *)
  parseYesNo : string * string → string → string + bool;
  (** [ConfigFile::parseNumber<uint16_t>(pair, sectionName)] *)
  parseNumber_uint16 : string * string → string → string + N;
  (** [listNetworkInterfaces()] *)
  listNetworkInterfaces : list NetworkInterfaceInfo
}.

(** Modelled from the spec: the class [TcpChannel] is declared in
    tcp-channel.hpp, whose source is not at hand.  A channel object
    owns one local endpoint, listens or not, and when it listens has
    the sink that inbound faces are handed to. *)
Record TcpChannel := mkChannel {
  localEndpoint : Endpoint;
  isListening : bool;
  onFaceCreated : option Callback
}.

(** Modelled from the spec: the constructor [TcpChannel(endpoint)];
    a new channel does not listen. *)
Definition TcpChannel_new (endpoint : Endpoint) : TcpChannel :=
  mkChannel endpoint false None.

(** Modelled from the spec: [TcpChannel::listen(onFaceCreated,
    onAcceptFailed)] starts listening and registers the inbound-face
    sink. *)
Definition TcpChannel_listen (cb : Callback) (c : TcpChannel) : TcpChannel :=
  mkChannel (localEndpoint c) true (Some cb).

(** The factory, with the channel objects its pointers denote:
    [channels p] is the object at [p], and [next_channel] is the
    pointer the next [make_shared<TcpChannel>] returns. *)
Record State := mkState {
  m_channels : std_map.t ChannelPtr;
  m_prohibitedEndpoints : gset Endpoint;
  providedSchemes : gset string;
  channels : ChannelPtr → TcpChannel;
  next_channel : ChannelPtr
}.

(** A factory as constructed: nothing registered. *)
Definition initial : State :=
  mkState std_map.empty ∅ ∅ (λ _, TcpChannel_new (Endpoint_v4 0)) 0%nat.

Definition set_m_channels (f : std_map.t ChannelPtr → std_map.t ChannelPtr)
    (s : State) : State :=
  mkState (f (m_channels s)) (m_prohibitedEndpoints s) (providedSchemes s)
          (channels s) (next_channel s).
Definition set_m_prohibitedEndpoints (f : gset Endpoint → gset Endpoint)
    (s : State) : State :=
  mkState (m_channels s) (f (m_prohibitedEndpoints s)) (providedSchemes s)
          (channels s) (next_channel s).
Definition set_providedSchemes (f : gset string → gset string)
    (s : State) : State :=
  mkState (m_channels s) (m_prohibitedEndpoints s) (f (providedSchemes s))
          (channels s) (next_channel s).
Definition set_channels (f : (ChannelPtr → TcpChannel) → ChannelPtr → TcpChannel)
    (s : State) : State :=
  mkState (m_channels s) (m_prohibitedEndpoints s) (providedSchemes s)
          (f (channels s)) (next_channel s).

(** [make_shared<TcpChannel>(endpoint)] *)
Definition make_shared (endpoint : Endpoint) (s : State) : ChannelPtr * State :=
  (next_channel s,
   mkState (m_channels s) (m_prohibitedEndpoints s) (providedSchemes s)
           (<[next_channel s := TcpChannel_new endpoint]> (channels s))
           (S (next_channel s))).

Section factory.
Context `{Platform}.

(** *** Endpoint prohibition

    [prohibitEndpoint] and the two expansion helpers call each
    other; [fuel] bounds the nesting of [prohibitEndpoint] calls,
    and [None] means the bound was reached. *)

(** The loops of [prohibitAllIpv4Endpoints], over a callee
    [prohibit] for the nested [prohibitEndpoint] calls. *)
Fixpoint prohibit_v4_addresses (prohibit : Endpoint → State → option State)
    (addrs : list ip.address_v4) (p : N) (s : State) : option State :=
  match addrs with
  | [] => Some s
  | addr :: rest =>
      if decide (addr ≠ ip.v4_any)
      then s' ← prohibit (mkEndpoint (ip.V4 addr) p) s;
           prohibit_v4_addresses prohibit rest p s'
      else prohibit_v4_addresses prohibit rest p s
  end.

Fixpoint prohibit_v4_nics (prohibit : Endpoint → State → option State)
    (nics : list NetworkInterfaceInfo) (p : N) (s : State) : option State :=
  match nics with
  | [] => Some s
  | nic :: rest =>
      s' ← prohibit_v4_addresses prohibit (ipv4Addresses nic) p s;
      prohibit_v4_nics prohibit rest p s'
  end.

Fixpoint prohibit_v6_addresses (prohibit : Endpoint → State → option State)
    (addrs : list ip.address_v6) (p : N) (s : State) : option State :=
  match addrs with
  | [] => Some s
  | addr :: rest =>
      if decide (addr ≠ ip.v6_any)
      then s' ← prohibit (mkEndpoint (ip.V6 addr) p) s;
           prohibit_v6_addresses prohibit rest p s'
      else prohibit_v6_addresses prohibit rest p s
  end.

Fixpoint prohibit_v6_nics (prohibit : Endpoint → State → option State)
    (nics : list NetworkInterfaceInfo) (p : N) (s : State) : option State :=
  match nics with
  | [] => Some s
  | nic :: rest =>
      s' ← prohibit_v6_addresses prohibit (ipv6Addresses nic) p s;
      prohibit_v6_nics prohibit rest p s'
  end.

Fixpoint prohibitEndpoint_fuel (fuel : nat) (endpoint : Endpoint) (s : State)
    : option State :=
  match fuel with
  | O => None
  | S fuel' =>
      s' ← (if ip.is_v4 (address endpoint)
               && bool_decide (address endpoint = ip.V4 ip.v4_any)
            then prohibit_v4_nics (prohibitEndpoint_fuel fuel')
                   listNetworkInterfaces (port endpoint) s
            else if ip.is_v6 (address endpoint)
                    && bool_decide (address endpoint = ip.V6 ip.v6_any)
            then prohibit_v6_nics (prohibitEndpoint_fuel fuel')
                   listNetworkInterfaces (port endpoint) s
            else Some s);
      Some (set_m_prohibitedEndpoints (λ X, {[endpoint]} ∪ X) s')
  end.

Definition prohibitAllIpv4Endpoints_fuel (fuel : nat) (p : N) (s : State)
    : option State :=
  prohibit_v4_nics (prohibitEndpoint_fuel fuel) listNetworkInterfaces p s.

Definition prohibitAllIpv6Endpoints_fuel (fuel : nat) (p : N) (s : State)
    : option State :=
  prohibit_v6_nics (prohibitEndpoint_fuel fuel) listNetworkInterfaces p s.

(** Two nested calls are all there are (it is a theorem below that
    this fuel is never exhausted and that more fuel changes
    nothing). *)
Definition prohibitEndpoint (endpoint : Endpoint) : M State Exception () :=
  modify (λ s, default s (prohibitEndpoint_fuel 2 endpoint s)).

(** *** The channel registry *)

Definition findChannel (localEndpoint : Endpoint) (s : State)
    : option ChannelPtr :=
  std_map.find localEndpoint (m_channels s).

Definition createChannel (endpoint : Endpoint) : M State Exception ChannelPtr :=
  s ← get;
  match findChannel endpoint s with
  | Some channel => mret channel
  | None =>
      channel ← (λ s, let '(p, s') := make_shared endpoint s in (Ret p, s'));
      modify (set_m_channels (std_map.assign endpoint channel));;
      prohibitEndpoint endpoint;;
      mret channel
  end.

(** [createChannel(localIp, localPort)]; [None] when either string
    does not parse (the constructor arguments throw). *)
Definition createChannel_str (localIp localPort : string)
    : option (M State Exception ChannelPtr) :=
  match from_string localIp, lexical_cast_uint16 localPort with
  | Some a, Some p => Some (createChannel (mkEndpoint a p))
  | _, _ => None
  end.

(** Modelled from the spec: [getChannels()] returns what the helper
    [getChannelsFromMap] makes of the map, and the helper's source is
    not at hand; it is taken to list the channels that the map
    holds, in the order of the map. *)
Definition getChannels (s : State) : list ChannelPtr := (m_channels s).*2.

(** *** Configuration *)

(** The four locals of [processConfig]. *)
Record Options := mkOptions {
  wantListen : bool;
  opt_port : N;
  enableV4 : bool;
  enableV6 : bool
}.

Definition default_options : Options := mkOptions true 6363 true true.

Definition section_name : string := "face_system.tcp".

(** A parser's result in the monad: its error is thrown. *)
Definition parsed {A} (r : string + A) : M State Exception A :=
  match r with
  | inr a => mret a
  | inl msg => throw (ConfigFile_Error msg)
  end.

(** The loop over the section's pairs. *)
Fixpoint parse_section (sec : ConfigSection) (o : Options)
    : M State Exception Options :=
  match sec with
  | [] => mret o
  | kv :: rest =>
      let key := kv.1 in
      if String.eqb key "listen" then
        v ← parsed (parseYesNo kv section_name);
        parse_section rest (mkOptions v (opt_port o) (enableV4 o) (enableV6 o))
      else if String.eqb key "port" then
        v ← parsed (parseNumber_uint16 kv section_name);
        parse_section rest (mkOptions (wantListen o) v (enableV4 o) (enableV6 o))
      else if String.eqb key "enable_v4" then
        v ← parsed (parseYesNo kv section_name);
        parse_section rest (mkOptions (wantListen o) (opt_port o) v (enableV6 o))
      else if String.eqb key "enable_v6" then
        v ← parsed (parseYesNo kv section_name);
        parse_section rest (mkOptions (wantListen o) (opt_port o) (enableV4 o) v)
      else
        throw (ConfigFile_Error ("Unrecognized option face_system.tcp." +:+ key))
  end.

Definition both_disabled_message : string :=
  "IPv4 and IPv6 TCP channels have been disabled. Remove face_system.tcp section to disable TCP channels or enable at least one channel type.".

(** [channel->isListening()] and [channel->listen(addFace, nullptr)] *)
Definition channel_isListening (p : ChannelPtr) : M State Exception bool :=
  s ← get; mret (isListening (channels s p)).
Definition channel_listen (p : ChannelPtr) (cb : Callback) : M State Exception () :=
  modify (set_channels (λ h, <[p := TcpChannel_listen cb (h p)]> h)).

Definition insert_scheme (scheme : string) : M State Exception () :=
  modify (set_providedSchemes (λ X, {[scheme]} ∪ X)).

(** One enabled family: lines 96-103 and 108-115. *)
Definition enable_family (endpoint : Endpoint) (scheme : string)
    (o : Options) (context : ConfigContext) : M State Exception () :=
  channel ← createChannel endpoint;
  listening ← channel_isListening channel;
  when (wantListen o && negb listening)
       (channel_listen channel (addFace context));;
  insert_scheme scheme.

Definition processConfig (configSection : option ConfigSection)
    (context : ConfigContext) : M State Exception () :=
  match configSection with
  | None => mret ()
  | Some sec =>
      o ← parse_section sec default_options;
      if negb (enableV4 o) && negb (enableV6 o) then
        throw (ConfigFile_Error both_disabled_message)
      else
        when (negb (isDryRun context))
          (insert_scheme "tcp";;
           when (enableV4 o)
             (enable_family (Endpoint_v4 (opt_port o)) "tcp4" o context);;
           when (enableV6 o)
             (enable_family (Endpoint_v6 (opt_port o)) "tcp6" o context))
  end.

(** *** Outbound faces *)

(** What one call of [createFace] does: it fails its assertion,
    calls [onFailure(code, reason)] and returns, hands the connect
    to a channel, or leaves by the exception of the endpoint's
    construction (which of the two parsers threw is not recorded:
    the order of evaluation of the two arguments is not fixed). *)
Inductive Outcome :=
| AssertionFailed
| OnFailure (cb : Callback) (code : N) (reason : string)
| ChannelConnect (channel : ChannelPtr) (remote : Endpoint)
    (persistency : FacePersistency) (wantLocalFieldsEnabled : bool)
    (onCreated onFailure : Callback)
| Thrown.

(** Lines 144-145. *)
Definition resolve (remoteUri : FaceUri) : option Endpoint :=
  match from_string (getHost remoteUri),
        lexical_cast_uint16 (getPort remoteUri) with
  | Some a, Some p => Some (mkEndpoint a p)
  | _, _ => None
  end.

(** The loop of lines 167-173: the first entry, in the order of the
    map, of the family of [endpoint]. *)
Fixpoint select_channel (m : std_map.t ChannelPtr) (endpoint : Endpoint)
    : option ChannelPtr :=
  match m with
  | [] => None
  | i :: rest =>
      if (ip.is_v4 (address i.1) && ip.is_v4 (address endpoint))
         || (ip.is_v6 (address i.1) && ip.is_v6 (address endpoint))
      then Some i.2
      else select_channel rest endpoint
  end.

Definition createFace (s : State) (remoteUri : FaceUri)
    (localUri : option FaceUri) (persistency : FacePersistency)
    (wantLocalFieldsEnabled : bool) (onCreated onFailure : Callback)
    : Outcome :=
  if negb (isCanonical remoteUri) then AssertionFailed
  else if bool_decide (is_Some localUri) then
    OnFailure onFailure 406 "Unicast TCP faces cannot be created with a LocalUri"
  else if bool_decide (persistency = FACE_PERSISTENCY_ON_DEMAND) then
    OnFailure onFailure 406 "Outgoing TCP faces do not support on-demand persistency"
  else
    match resolve remoteUri with
    | None => Thrown
    | Some endpoint =>
        if ip.is_multicast (address endpoint) then
          OnFailure onFailure 406 "Cannot create multicast TCP faces"
        else if bool_decide (endpoint ∈ m_prohibitedEndpoints s) then
          OnFailure onFailure 406 "Requested endpoint is prohibited"
        else if wantLocalFieldsEnabled && negb (ip.is_loopback (address endpoint)) then
          OnFailure onFailure 406 "Local fields can only be enabled on faces with local scope"
        else
          match select_channel (m_channels s) endpoint with
          | Some channel =>
              ChannelConnect channel endpoint persistency
                wantLocalFieldsEnabled onCreated onFailure
          | None => OnFailure onFailure 504 "No channels available to connect"
          end
    end.

(** *** The vocabulary of the properties

    Names for what the statements below talk about: the endpoints a
    wildcard expands to, the rejection gates of [createFace], the
    invariant of the registry, and the rounds of the configuration
    loop. *)

(** An endpoint at the wildcard-any address of its family. *)
Definition wildcard (e : Endpoint) : Prop :=
  address e = ip.V4 ip.v4_any ∨ address e = ip.V6 ip.v6_any.

Definition prohibit_one (e : Endpoint) (s : State) : State :=
  set_m_prohibitedEndpoints (λ X, {[e]} ∪ X) s.

Definition prohibit_all (l : list Endpoint) (s : State) : State :=
  set_m_prohibitedEndpoints (λ X, list_to_set l ∪ X) s.

(** The endpoints that the expansion loops pass on. *)
Definition v4_targets (addrs : list ip.address_v4) (p : N) : list Endpoint :=
  (λ a, mkEndpoint (ip.V4 a) p) <$> filter (λ a, a ≠ ip.v4_any) addrs.
Definition v6_targets (addrs : list ip.address_v6) (p : N) : list Endpoint :=
  (λ a, mkEndpoint (ip.V6 a) p) <$> filter (λ a, a ≠ ip.v6_any) addrs.

Definition nics_v4_targets (nics : list NetworkInterfaceInfo) (p : N)
    : list Endpoint :=
  nics ≫= (λ nic, v4_targets (ipv4Addresses nic) p).
Definition nics_v6_targets (nics : list NetworkInterfaceInfo) (p : N)
    : list Endpoint :=
  nics ≫= (λ nic, v6_targets (ipv6Addresses nic) p).

(** The number of addresses that the interfaces carry. *)
Definition address_count (nics : list NetworkInterfaceInfo) : nat :=
  sum_list_with
    (λ nic, length (ipv4Addresses nic) + length (ipv6Addresses nic))%nat nics.

(** What a wildcard expands to. *)
Definition expansion (e : Endpoint) : list Endpoint :=
  if ip.is_v4 (address e) && bool_decide (address e = ip.V4 ip.v4_any)
  then nics_v4_targets listNetworkInterfaces (port e)
  else if ip.is_v6 (address e) && bool_decide (address e = ip.V6 ip.v6_any)
  then nics_v6_targets listNetworkInterfaces (port e)
  else [].

(** The registry of a factory is in order, and each of its entries
    points to a channel object that [make_shared] has returned and
    that was constructed at the entry's key. *)
Definition registry_ok (s : State) : Prop :=
  std_map.ordered (m_channels s)
  ∧ ∀ k p, (k, p) ∈ m_channels s →
           (p < next_channel s)%nat ∧ localEndpoint (channels s p) = k.

(** The state after a [createChannel] that finds nothing at
    [endpoint]. *)
Definition registered (endpoint : Endpoint) (s : State) : State :=
  let s1 := (make_shared endpoint s).2 in
  let s2 := set_m_channels (std_map.assign endpoint (next_channel s)) s1 in
  prohibit_one endpoint (prohibit_all (expansion endpoint) s2).

(** The arguments of one [createFace] call. *)
Record Request := mkRequest {
  remoteUri : FaceUri;
  localUri : option FaceUri;
  persistency : FacePersistency;
  wantLocalFieldsEnabled : bool;
  onCreated : Callback;
  onFailure : Callback
}.

(** The rejection gates, numbered as the design numbers them (3 is the
    resolution of the remote endpoint, 7 the channel selection). *)
Inductive Gate :=
| LocalUriPresent
| OnDemandPersistency
| MulticastAddress
| ProhibitedEndpoint
| LocalFieldsNotLoopback.

Definition gate_number (g : Gate) : nat :=
  match g with
  | LocalUriPresent => 1
  | OnDemandPersistency => 2
  | MulticastAddress => 4
  | ProhibitedEndpoint => 5
  | LocalFieldsNotLoopback => 6
  end.

(** The (code, reason) pair of each gate. *)
Definition rejection (g : Gate) : N * string :=
  match g with
  | LocalUriPresent =>
      (406, "Unicast TCP faces cannot be created with a LocalUri")
  | OnDemandPersistency =>
      (406, "Outgoing TCP faces do not support on-demand persistency")
  | MulticastAddress =>
      (406, "Cannot create multicast TCP faces")
  | ProhibitedEndpoint =>
      (406, "Requested endpoint is prohibited")
  | LocalFieldsNotLoopback =>
      (406, "Local fields can only be enabled on faces with local scope")
  end.

Definition call (s : State) (r : Request) : Outcome :=
  createFace s (remoteUri r) (localUri r) (persistency r)
             (wantLocalFieldsEnabled r) (onCreated r) (onFailure r).

(** A request violates a gate when the gate's condition holds of it;
    the conditions on the remote endpoint are on what the remote URI
    resolves to. *)
Definition violates (s : State) (r : Request) (g : Gate) : bool :=
  match g with
  | LocalUriPresent => bool_decide (is_Some (localUri r))
  | OnDemandPersistency =>
      bool_decide (persistency r = FACE_PERSISTENCY_ON_DEMAND)
  | MulticastAddress =>
      match resolve (remoteUri r) with
      | Some endpoint => ip.is_multicast (address endpoint)
      | None => false
      end
  | ProhibitedEndpoint =>
      match resolve (remoteUri r) with
      | Some endpoint => bool_decide (endpoint ∈ m_prohibitedEndpoints s)
      | None => false
      end
  | LocalFieldsNotLoopback =>
      match resolve (remoteUri r) with
      | Some endpoint =>
          wantLocalFieldsEnabled r && negb (ip.is_loopback (address endpoint))
      | None => false
      end
  end.

Definition rejected_by (s : State) (r : Request) (g : Gate) : Prop :=
  call s r = OnFailure (onFailure r) (rejection g).1 (rejection g).2.

Definition recognized : list string := ["listen"; "port"; "enable_v4"; "enable_v6"].

(** A section with a key that the factory does not know. *)
Definition has_unrecognized_key (sec : ConfigSection) : Prop :=
  ∃ kv, kv ∈ sec ∧ kv.1 ∉ recognized.

(** The last entry of the section for [key] parses to [no]. *)
Definition set_to_no (key : string) (sec : ConfigSection) : Prop :=
  ∃ before kv after,
    sec = before ++ kv :: after
    ∧ kv.1 = key
    ∧ parseYesNo kv section_name = inr false
    ∧ ∀ kv', kv' ∈ after → kv'.1 ≠ key.

(** One round of the loop, on the locals alone. *)
Definition parse_entry (kv : string * string) (o : Options) : string + Options :=
  if String.eqb kv.1 "listen" then
    match parseYesNo kv section_name with
    | inr v => inr (mkOptions v (opt_port o) (enableV4 o) (enableV6 o))
    | inl msg => inl msg
    end
  else if String.eqb kv.1 "port" then
    match parseNumber_uint16 kv section_name with
    | inr v => inr (mkOptions (wantListen o) v (enableV4 o) (enableV6 o))
    | inl msg => inl msg
    end
  else if String.eqb kv.1 "enable_v4" then
    match parseYesNo kv section_name with
    | inr v => inr (mkOptions (wantListen o) (opt_port o) v (enableV6 o))
    | inl msg => inl msg
    end
  else if String.eqb kv.1 "enable_v6" then
    match parseYesNo kv section_name with
    | inr v => inr (mkOptions (wantListen o) (opt_port o) (enableV4 o) v)
    | inl msg => inl msg
    end
  else inl ("Unrecognized option face_system.tcp." +:+ kv.1).

(** Lines 93-119, after the validation. *)
Definition apply_options (o : Options) (context : ConfigContext)
    : M State Exception () :=
  when (negb (isDryRun context))
    (insert_scheme "tcp";;
     when (enableV4 o)
       (enable_family (Endpoint_v4 (opt_port o)) "tcp4" o context);;
     when (enableV6 o)
       (enable_family (Endpoint_v6 (opt_port o)) "tcp6" o context)).

(** The two ways a section is rejected after it has parsed or while
    it is parsed: a key that is not recognized, or both families set
    to no. *)
Definition rejected (sec : ConfigSection) : Prop :=
  has_unrecognized_key sec
  ∨ (set_to_no "enable_v4" sec ∧ set_to_no "enable_v6" sec).

(** *** What the factory keeps, in names *)

(** [TcpFactory::getId()] *)
Definition getId : string := "tcp".

(** The schemes that [processConfig] provides. *)
Definition tcp_schemes : gset string := {["tcp"; "tcp4"; "tcp6"]}.

(** Every endpoint that has a channel is prohibited, and so is
    every endpoint that it expands to. *)
Definition channels_prohibited (s : State) : Prop :=
  ∀ k, k ∈ std_map.keys (m_channels s) →
       k ∈ m_prohibitedEndpoints s
       ∧ ∀ e, e ∈ expansion k → e ∈ m_prohibitedEndpoints s.

(** [s'] keeps what [s] has: every channel of the registry under its
    endpoint, every scheme, every prohibition, and every channel
    object made so far, at its endpoint, and as it is if it
    listens. *)
Definition extends (s s' : State) : Prop :=
  (∀ k c, findChannel k s = Some c → findChannel k s' = Some c)
  ∧ providedSchemes s ⊆ providedSchemes s'
  ∧ m_prohibitedEndpoints s ⊆ m_prohibitedEndpoints s'
  ∧ (next_channel s ≤ next_channel s')%nat
  ∧ ∀ p, (p < next_channel s)%nat →
         localEndpoint (channels s' p) = localEndpoint (channels s p)
         ∧ (isListening (channels s p) = true → channels s' p = channels s p).

(** [s'] has no more than [s] and what a configuration may add: the
    three schemes, and channels at wildcard endpoints. *)
Definition within (s s' : State) : Prop :=
  providedSchemes s' ⊆ providedSchemes s ∪ tcp_schemes
  ∧ ∀ k, k ∈ std_map.keys (m_channels s') →
         k ∈ std_map.keys (m_channels s) ∨ wildcard k.

(** What a family has once it is enabled: its channel at [endpoint],
    listening if asked, and its scheme. *)
Definition family_enabled (endpoint : Endpoint) (scheme : string)
    (listen : bool) (s : State) : Prop :=
  ∃ p, findChannel endpoint s = Some p
       ∧ (p < next_channel s)%nat
       ∧ localEndpoint (channels s p) = endpoint
       ∧ (listen = true → isListening (channels s p) = true)
       ∧ scheme ∈ providedSchemes s.

(** The state after the listening step of an enabled family: the
    channel is made to listen unless it does, or is not asked to. *)
Definition listened (channel : ChannelPtr) (cb : Callback) (want : bool)
    (s : State) : State :=
  if want && negb (isListening (channels s channel))
  then set_channels (λ h, <[channel := TcpChannel_listen cb (h channel)]> h) s
  else s.

End factory.

(** *** Calls at different times

    [prohibitAllIpv4Endpoints] and [prohibitAllIpv6Endpoints] ask
    [listNetworkInterfaces()] anew at every call, and what is
    enumerated may have changed in between.  Two calls are
    therefore taken under two platforms, one as each call finds it.
    The addresses that an enumeration reports: *)
Definition reported_v4 (P : Platform) : list ip.address_v4 :=
  @listNetworkInterfaces P ≫= ipv4Addresses.
Definition reported_v6 (P : Platform) : list ip.address_v6 :=
  @listNetworkInterfaces P ≫= ipv6Addresses.

(** The enumeration that [Q] finds reports no address that the one
    [P] finds does not report. *)
Definition nothing_new (Q P : Platform) : Prop :=
  reported_v4 Q ⊆ reported_v4 P ∧ reported_v6 Q ⊆ reported_v6 P.

End TcpFactory.

(** ** The face table *)

Module FaceTable.

Local Open Scope Z_scope.

(** [FaceId] is a fixed-width integer type; its declaration and that
    of [INVALID_FACEID] are in face.hpp.  Values are integers, and
    the least and the greatest value of the type are taken as
    parameters below. *)
Definition FaceId := Z.

(** A [shared_ptr<Face>]: the identity of a face object. *)
Definition FacePtr := nat.

(** The subscribers of a face's events: the two handlers that [add]
    binds to the face, or any other. *)
Inductive Handler :=
| Forwarder_onInterest (face : FacePtr)
| Forwarder_onData (face : FacePtr)
| Subscriber (n : nat).

(** What the table reads and writes of a [Face]: its id and its two
    [EventEmitter]s, each the list of its subscribers. *)
Record Face := mkFace {
  getId : FaceId;
  onReceiveInterest : list Handler;
  onReceiveData : list Handler
}.

Definition setId (faceId : FaceId) (f : Face) : Face :=
  mkFace faceId (onReceiveInterest f) (onReceiveData f).

(** A FIB entry: a name prefix and its next hops (face and cost). *)
Record FibEntry := mkFibEntry {
  prefix : string;
  nextHops : list (FacePtr * N)
}.

Definition Fib := list FibEntry.

(** Modelled from the spec: [Fib::removeNextHopFromAllEntries] is
    defined with the forwarding table, whose source is not at hand.
    It drops the face from every next-hop list it appears in. *)
Definition removeNextHopFromAllEntries (face : FacePtr) (fib : Fib) : Fib :=
  map (λ e, mkFibEntry (prefix e) (filter (λ h, h.1 ≠ face) (nextHops e))) fib.

(** The table, with the face objects its pointers denote and the
    FIB of the forwarder it refers to. *)
Record State := mkState {
  faces : FacePtr → Face;
  m_lastFaceId : FaceId;
  m_faces : gmap Z FacePtr;
  fib : Fib
}.

(** [FaceTable::FaceTable(forwarder)] *)
Definition new (objects : FacePtr → Face) (forwarder_fib : Fib) : State :=
  mkState objects 0 ∅ forwarder_fib.

Definition update_face (face : FacePtr) (f : Face → Face) (s : State) : State :=
  mkState (<[face := f (faces s face)]> (faces s))
          (m_lastFaceId s) (m_faces s) (fib s).

Section table.
(** The sentinel, declared next to [FaceId]. *)
Variable INVALID_FACEID : FaceId.

(** The least and the greatest value of the integer type that
    [FaceId] names. *)
Variables FaceId_min FaceId_max : FaceId.

(** [++x] on that type.  From the greatest value the counter goes to
    the least: this is what unsigned arithmetic is defined to do and
    what two's complement does for a signed type (for which the
    language leaves the overflow undefined). *)
Definition increment (x : FaceId) : FaceId :=
  if decide (x = FaceId_max) then FaceId_min else x + 1.

Definition add (face : FacePtr) (s : State) : State :=
  (* FaceId faceId = ++m_lastFaceId; *)
  let faceId := increment (m_lastFaceId s) in
  let s := mkState (faces s) faceId (m_faces s) (fib s) in
  (* face->setId(faceId); *)
  let s := update_face face (setId faceId) s in
  (* m_faces[faceId] = face; *)
  let s := mkState (faces s) (m_lastFaceId s) (<[faceId := face]> (m_faces s))
                   (fib s) in
  (* face->onReceiveInterest += ...; face->onReceiveData += ...; *)
  let s := update_face face
             (λ f, mkFace (getId f)
                     (onReceiveInterest f ++ [Forwarder_onInterest face])
                     (onReceiveData f)) s in
  update_face face
    (λ f, mkFace (getId f) (onReceiveInterest f)
            (onReceiveData f ++ [Forwarder_onData face])) s.

Definition remove (face : FacePtr) (s : State) : State :=
  (* FaceId faceId = face->getId(); *)
  let faceId := getId (faces s face) in
  (* m_faces.erase(faceId); *)
  let s := mkState (faces s) (m_lastFaceId s) (delete faceId (m_faces s))
                   (fib s) in
  (* face->setId(INVALID_FACEID); *)
  let s := update_face face (setId INVALID_FACEID) s in
  (* face->onReceiveInterest.clear(); face->onReceiveData.clear(); *)
  let s := update_face face (λ f, mkFace (getId f) [] (onReceiveData f)) s in
  let s := update_face face (λ f, mkFace (getId f) (onReceiveInterest f) []) s in
  (* m_forwarder.getFib().removeNextHopFromAllEntries(face); *)
  mkState (faces s) (m_lastFaceId s) (m_faces s)
          (removeNextHopFromAllEntries face (fib s)).

(** A face is registered when the table maps its id to it. *)
Definition registered (face : FacePtr) (s : State) : Prop :=
  m_faces s !! getId (faces s face) = Some face.

(** Sequences of table operations, and the ids that the [add]
    calls of a sequence assign, in call order. *)
Inductive Op :=
| Add (face : FacePtr)
| Remove (face : FacePtr).

Definition step (op : Op) (s : State) : State :=
  match op with
  | Add face => add face s
  | Remove face => remove face s
  end.

Fixpoint run (ops : list Op) (s : State) : State :=
  match ops with
  | [] => s
  | op :: rest => run rest (step op s)
  end.

Fixpoint assigned (ops : list Op) (s : State) : list FaceId :=
  match ops with
  | [] => []
  | Add face :: rest =>
      let s' := add face s in getId (faces s' face) :: assigned rest s'
  | Remove face :: rest => assigned rest (remove face s)
  end.

(** The table maps an id only to the face that carries it. *)
Definition table_ok (s : State) : Prop :=
  ∀ faceId face, m_faces s !! faceId = Some face → getId (faces s face) = faceId.

(** How many [add] calls a sequence has. *)
Fixpoint adds (ops : list Op) : nat :=
  match ops with
  | [] => 0
  | Add _ :: rest => S (adds rest)
  | Remove _ :: rest => adds rest
  end.

(** The counter has not gone below its start, and every id in the
    table is one that it has given out. *)
Definition ids_bounded (s : State) : Prop :=
  0 ≤ m_lastFaceId s
  ∧ ∀ faceId face, m_faces s !! faceId = Some face →
                   1 ≤ faceId ≤ m_lastFaceId s.

(** How many [remove] calls a sequence has. *)
Fixpoint removes (ops : list Op) : nat :=
  match ops with
  | [] => 0
  | Add _ :: rest => removes rest
  | Remove _ :: rest => S (removes rest)
  end.

(** A sequence that keeps the contract of the table: it adds faces
    that the table does not hold, and removes registered faces. *)
Fixpoint well_used (ops : list Op) (s : State) : Prop :=
  match ops with
  | [] => True
  | Add face :: rest =>
      (∀ faceId, m_faces s !! faceId ≠ Some face) ∧ well_used rest (add face s)
  | Remove face :: rest =>
      registered face s ∧ well_used rest (remove face s)
  end.

(** A sequence of [add] calls that takes the counter of a new table
    to the greatest id, past it, and on to 1 again. *)
Definition wrapping_sequence (face : FacePtr) : list Op :=
  replicate (Z.to_nat FaceId_max) (Add face)
  ++ Add face :: replicate (Z.to_nat (1 - FaceId_min)) (Add face).

End table.
End FaceTable.

(** ** A platform and a factory to run the model on

    One concrete choice of the outside functions, for the examples:
    the address parser knows a handful of literals, ports are decimal
    numbers below 65536, and there is one loopback interface and one
    wired interface. *)

Module sample.
Import TcpFactory.

Definition digit (c : Ascii.ascii) : option N :=
  let n := Ascii.N_of_ascii c in
  if (48 <=? n) && (n <=? 57) then Some (n - 48) else None.

Fixpoint decimal (acc : N) (str : string) : option N :=
  match str with
  | EmptyString => Some acc
  | String c rest =>
      match digit c with
      | Some d => decimal (10 * acc + d) rest
      | None => None
      end
  end.

Definition parse_uint16 (str : string) : option N :=
  match str with
  | EmptyString => None
  | _ => match decimal 0 str with
         | Some n => if n <? 65536 then Some n else None
         | None => None
         end
  end.

Definition parse_address (str : string) : option ip.address :=
  if String.eqb str "127.0.0.1" then Some (ip.V4 0x7F000001)
  else if String.eqb str "192.0.2.1" then Some (ip.V4 0xC0000201)
  else if String.eqb str "192.0.2.7" then Some (ip.V4 0xC0000207)
  else if String.eqb str "224.0.0.1" then Some (ip.V4 0xE0000001)
  else if String.eqb str "0.0.0.0" then Some (ip.V4 ip.v4_any)
  else if String.eqb str "::1" then Some (ip.V6 (ip.mk_v6 1 0))
  else if String.eqb str "2001:db8::7" then
    Some (ip.V6 (ip.mk_v6 0x20010db8000000000000000000000007 0))
  else if String.eqb str "::" then Some (ip.V6 ip.v6_any)
  else None.

Definition yes_no (kv : string * string) (sec : string) : string + bool :=
  if String.eqb kv.2 "yes" then inr true
  else if String.eqb kv.2 "no" then inr false
  else inl ("Invalid value for option " +:+ kv.1 +:+ " in section " +:+ sec).

Definition number (kv : string * string) (sec : string) : string + N :=
  match parse_uint16 kv.2 with
  | Some n => inr n
  | None => inl ("Invalid value for option " +:+ kv.1 +:+ " in section " +:+ sec)
  end.

Definition interfaces : list NetworkInterfaceInfo :=
  [ mkNic [0x7F000001] [ip.mk_v6 1 0];
    mkNic [0xC0000207] [ip.mk_v6 0x20010db8000000000000000000000007 0] ].

Definition platform : Platform :=
  {| from_string := parse_address;
     lexical_cast_uint16 := parse_uint16;
     parseYesNo := yes_no;
     parseNumber_uint16 := number;
     listNetworkInterfaces := interfaces |}.

(** The same platform at other times: with the wired interface
    gone, and with a further address on it. *)
Definition with_interfaces (nics : list NetworkInterfaceInfo) : Platform :=
  {| from_string := parse_address;
     lexical_cast_uint16 := parse_uint16;
     parseYesNo := yes_no;
     parseNumber_uint16 := number;
     listNetworkInterfaces := nics |}.

Definition unplugged : Platform :=
  with_interfaces [mkNic [0x7F000001] [ip.mk_v6 1 0]].

Definition readdressed : Platform :=
  with_interfaces
    [ mkNic [0x7F000001] [ip.mk_v6 1 0];
      mkNic [0xC0000207; 0xC0000208]
            [ip.mk_v6 0x20010db8000000000000000000000007 0] ].

Definition uri (host port : string) : FaceUri := mkFaceUri host port true.

(** A factory with the two wildcard channels, and a request to a v6
    host: the v4 channel comes first in the registry and is passed
    over. *)
Definition two_channels : State :=
  mkState [(Endpoint_v4 6363, 0%nat); (Endpoint_v6 6363, 1%nat)]
          {[Endpoint_v4 6363; Endpoint_v6 6363]} {["tcp"; "tcp4"; "tcp6"]}
          (λ p, TcpChannel_new (if decide (p = 0%nat) then Endpoint_v4 6363
                                else Endpoint_v6 6363))
          2%nat.

(** Both ways of rejection, on the sample platform. *)
Definition families_off : ConfigSection :=
  [("port", "6363"); ("enable_v4", "no"); ("enable_v6", "no")].

(** A table with one registered face that two FIB entries use. *)
Definition created : FaceTable.Face := FaceTable.mkFace (-1)%Z [] [].

Definition fib0 : FaceTable.Fib :=
  [FaceTable.mkFibEntry "/a" [(0%nat, 10); (1%nat, 20)];
   FaceTable.mkFibEntry "/b" [(0%nat, 5)]].

(** The range of a 32-bit [int]. *)
Definition int_min : Z := (-2147483648)%Z.
Definition int_max : Z := 2147483647%Z.

Definition one_face : FaceTable.State :=
  FaceTable.add int_min int_max 0%nat (FaceTable.new (λ _, created) fib0).

End sample.

(** * Properties *)

(** ** The order of endpoints and the ordered map *)

Module std_map_facts.

Lemma key_compare_spec (x y : N * N * N * N) :
  CompareSpec (x = y) (key_lt x y) (key_lt y x) (key_compare x y).
Proof.
  destruct x as [[[a1 b1] c1] d1], y as [[[a2 b2] c2] d2].
  unfold key_compare, key_lt.
  destruct (N.compare_spec a1 a2); [|constructor; lia ..].
  destruct (N.compare_spec b1 b2); [|constructor; lia ..].
  destruct (N.compare_spec c1 c2); [|constructor; lia ..].
  destruct (N.compare_spec d1 d2); constructor; try lia.
  congruence.
Qed.

Lemma Endpoint_key_inj (e1 e2 : Endpoint) :
  Endpoint_key e1 = Endpoint_key e2 → e1 = e2.
Proof.
  destruct e1 as [[a1|[b1 c1]] p1], e2 as [[a2|[b2 c2]] p2];
    unfold Endpoint_key; simpl; intros [=]; subst; reflexivity.
Qed.

Lemma Endpoint_compare_spec (e1 e2 : Endpoint) :
  CompareSpec (e1 = e2) (Endpoint_lt e1 e2) (Endpoint_lt e2 e1)
              (Endpoint_compare e1 e2).
Proof.
  unfold Endpoint_compare, Endpoint_lt.
  destruct (key_compare_spec (Endpoint_key e1) (Endpoint_key e2));
    constructor; auto using Endpoint_key_inj.
Qed.

Lemma Endpoint_compare_refl (e : Endpoint) : Endpoint_compare e e = Eq.
Proof.
  unfold Endpoint_compare.
  destruct (Endpoint_key e) as [[[a b] c] d]; simpl.
  by rewrite !N.compare_refl.
Qed.

#[global] Instance Endpoint_lt_strict : StrictOrder Endpoint_lt.
Proof.
  split.
  - intros e. unfold complement, Endpoint_lt.
    destruct (Endpoint_key e) as [[[a b] c] d]; simpl. lia.
  - intros x y z. unfold Endpoint_lt.
    destruct (Endpoint_key x) as [[[a1 b1] c1] d1],
             (Endpoint_key y) as [[[a2 b2] c2] d2],
             (Endpoint_key z) as [[[a3 b3] c3] d3]; simpl. lia.
Qed.

Lemma Endpoint_lt_neq (e1 e2 : Endpoint) : Endpoint_lt e1 e2 → e1 ≠ e2.
Proof. intros Hlt ->. by apply (irreflexivity Endpoint_lt e2). Qed.

(** Every v4 endpoint is before every v6 endpoint. *)
Lemma v4_before_v6 (e1 e2 : Endpoint) :
  ip.is_v4 (address e1) = true → ip.is_v6 (address e2) = true →
  Endpoint_lt e1 e2.
Proof.
  destruct e1 as [[a1|a1] p1], e2 as [[a2|a2] p2]; simpl; try done.
  intros _ _. unfold Endpoint_lt, Endpoint_key; simpl. lia.
Qed.

Section facts.
Context {V : Type}.
Implicit Types (m : std_map.t V) (k : Endpoint) (v : V).

Lemma ordered_nil : std_map.ordered (std_map.empty (V := V)).
Proof. constructor. Qed.

Lemma ordered_cons_inv k v m :
  std_map.ordered ((k, v) :: m) →
  std_map.ordered m ∧ Forall (Endpoint_lt k) (std_map.keys m).
Proof. unfold std_map.ordered; simpl. intros Hs. by inversion Hs. Qed.

Lemma find_Some_elem k v m : std_map.find k m = Some v → (k, v) ∈ m.
Proof.
  induction m as [|[k' v'] m IH]; simpl; [done|].
  destruct (Endpoint_compare_spec k k') as [->| |]; intros Hf.
  - injection Hf as ->. left.
  - done.
  - right. auto.
Qed.

Lemma elem_find k v m :
  std_map.ordered m → (k, v) ∈ m → std_map.find k m = Some v.
Proof.
  induction m as [|[k' v'] m IH]; simpl; intros Hord Hin.
  - by apply elem_of_nil in Hin.
  - apply ordered_cons_inv in Hord as [Hord Hall].
    apply elem_of_cons in Hin as [[= -> ->]|Hin].
    + by rewrite Endpoint_compare_refl.
    + assert (Endpoint_lt k' k) as Hlt.
      { rewrite list.Forall_forall in Hall. apply Hall.
        apply list_elem_of_fmap. by exists (k, v). }
      destruct (Endpoint_compare_spec k k') as [->|Hlt'|_].
      * by apply (irreflexivity Endpoint_lt) in Hlt.
      * exfalso. apply (irreflexivity Endpoint_lt k).
        by transitivity k'.
      * auto.
Qed.

Lemma find_None_keys k m :
  std_map.ordered m → std_map.find k m = None → k ∉ std_map.keys m.
Proof.
  intros Hord Hf Hin. apply list_elem_of_fmap in Hin as [[k' v] [-> Hin]].
  apply (elem_find _ _ _ Hord) in Hin. simpl in *. congruence.
Qed.

Lemma find_assign k v m : std_map.find k (std_map.assign k v m) = Some v.
Proof.
  induction m as [|[k' v'] m IH]; simpl.
  - by rewrite Endpoint_compare_refl.
  - destruct (Endpoint_compare k k') eqn:Hc; simpl.
    + by rewrite Hc.
    + by rewrite Endpoint_compare_refl.
    + by rewrite Hc.
Qed.

Lemma find_assign_ne k v m k' :
  k ≠ k' → std_map.find k' (std_map.assign k v m) = std_map.find k' m.
Proof.
  intros Hne. induction m as [|[k0 v0] m IH]; simpl.
  - destruct (Endpoint_compare_spec k' k); congruence.
  - destruct (Endpoint_compare_spec k k0) as [->|Hlt|Hgt]; simpl.
    + destruct (Endpoint_compare_spec k' k0); congruence.
    + destruct (Endpoint_compare_spec k' k) as [->|Hlt'|Hgt']; [done| |done].
      destruct (Endpoint_compare_spec k' k0) as [->|_|Hgt']; [|done|].
      * exfalso. apply (irreflexivity Endpoint_lt k0). by transitivity k.
      * exfalso. apply (irreflexivity Endpoint_lt k0).
        transitivity k'; [done|]. by transitivity k.
    + destruct (Endpoint_compare_spec k' k0); congruence.
Qed.

Lemma keys_assign k v m k' :
  k' ∈ std_map.keys (std_map.assign k v m) ↔ k' = k ∨ k' ∈ std_map.keys m.
Proof.
  unfold std_map.keys. induction m as [|[k0 v0] m IH]; simpl.
  - rewrite list_elem_of_singleton. set_solver.
  - destruct (Endpoint_compare_spec k k0) as [->|Hlt|Hgt]; simpl.
    + rewrite !elem_of_cons. naive_solver.
    + rewrite !elem_of_cons. naive_solver.
    + rewrite !elem_of_cons, IH. naive_solver.
Qed.

Lemma assign_ordered k v m :
  std_map.ordered m → std_map.ordered (std_map.assign k v m).
Proof.
  induction m as [|[k0 v0] m IH]; simpl; intros Hord.
  - repeat constructor.
  - destruct (ordered_cons_inv _ _ _ Hord) as [Hm Hall].
    destruct (Endpoint_compare_spec k k0) as [->|Hlt|Hgt].
    + done.
    + unfold std_map.ordered; simpl. constructor; [done|].
      constructor; [done|].
      rewrite list.Forall_forall in Hall |- *.
      intros x Hx. transitivity k0; auto.
    + unfold std_map.ordered; simpl. constructor; [by apply IH|].
      apply list.Forall_forall. intros x Hx.
      apply keys_assign in Hx as [->|Hx]; [done|].
      rewrite list.Forall_forall in Hall. auto.
Qed.

Lemma count_not_in k m : k ∉ std_map.keys m → std_map.count k m = 0%nat.
Proof.
  unfold std_map.count, std_map.keys.
  induction m as [|[k0 v0] m IH]; [done|].
  rewrite fmap_cons, not_elem_of_cons, filter_cons. simpl.
  intros [Hne Hnin]. rewrite decide_False by congruence. auto.
Qed.

(** In an ordered map an endpoint keys exactly one entry, or
    none. *)
Lemma count_in k m :
  std_map.ordered m → k ∈ std_map.keys m → std_map.count k m = 1%nat.
Proof.
  induction m as [|[k0 v0] m IH]; intros Hord Hin.
  - by apply elem_of_nil in Hin.
  - destruct (ordered_cons_inv _ _ _ Hord) as [Hm Hall].
    unfold std_map.count. rewrite filter_cons. simpl.
    destruct (decide (k0 = k)) as [->|Hne]; simpl.
    + f_equal. apply count_not_in. intros Hin'.
      rewrite list.Forall_forall in Hall.
      by apply (irreflexivity Endpoint_lt k), Hall.
    + apply IH; [done|].
      unfold std_map.keys in Hin; simpl in Hin.
      apply elem_of_cons in Hin as [->|Hin]; done.
Qed.

Lemma find_Some_count k v m :
  std_map.ordered m → std_map.find k m = Some v → std_map.count k m = 1%nat.
Proof.
  intros Hord Hf. apply count_in; [done|].
  apply find_Some_elem in Hf. apply list_elem_of_fmap. by exists (k, v).
Qed.

Lemma count_assign k v m :
  std_map.ordered m → std_map.count k (std_map.assign k v m) = 1%nat.
Proof.
  intros Hord. apply count_in; [by apply assign_ordered|].
  apply keys_assign. by left.
Qed.

End facts.
End std_map_facts.

(** ** The TCP factory: endpoint prohibition *)

Module TcpFactory_prohibit.
Import TcpFactory.

Lemma prohibit_all_nil s : prohibit_all [] s = s.
Proof.
  destruct s. unfold prohibit_all, set_m_prohibitedEndpoints; simpl.
  f_equal. set_solver.
Qed.

Lemma prohibit_all_cons e l s :
  prohibit_all l (prohibit_one e s) = prohibit_all (e :: l) s.
Proof.
  unfold prohibit_all, prohibit_one, set_m_prohibitedEndpoints; simpl.
  f_equal. set_solver.
Qed.

Lemma prohibit_all_app l1 l2 s :
  prohibit_all l2 (prohibit_all l1 s) = prohibit_all (l1 ++ l2) s.
Proof.
  unfold prohibit_all, set_m_prohibitedEndpoints; simpl.
  f_equal. set_solver.
Qed.

Lemma v4_targets_not_wildcard addrs p e :
  e ∈ v4_targets addrs p → ¬ wildcard e.
Proof.
  unfold v4_targets. rewrite list_elem_of_fmap.
  intros [a [-> Ha]]. apply list_elem_of_filter in Ha as [Ha _].
  intros [[=]|[=]]. done.
Qed.

Lemma v6_targets_not_wildcard addrs p e :
  e ∈ v6_targets addrs p → ¬ wildcard e.
Proof.
  unfold v6_targets. rewrite list_elem_of_fmap.
  intros [a [-> Ha]]. apply list_elem_of_filter in Ha as [Ha _].
  intros [[=]|[=]]. done.
Qed.

Section prohibit.
Context `{Platform}.

(** The helpers call their callee on non-wildcard endpoints only:
    two callees that agree there give the same run. *)
Lemma prohibit_v4_addresses_ext f g addrs p s :
  (∀ e s', ¬ wildcard e → f e s' = g e s') →
  prohibit_v4_addresses f addrs p s = prohibit_v4_addresses g addrs p s.
Proof.
  intros Hfg. revert s. induction addrs as [|a addrs IH]; intros s; simpl.
  - done.
  - destruct (decide (a ≠ ip.v4_any)) as [Ha|Ha]; [|done].
    rewrite Hfg; [|intros [[=]|[=]]; done].
    destruct (g _ s); simpl; auto.
Qed.

Lemma prohibit_v6_addresses_ext f g addrs p s :
  (∀ e s', ¬ wildcard e → f e s' = g e s') →
  prohibit_v6_addresses f addrs p s = prohibit_v6_addresses g addrs p s.
Proof.
  intros Hfg. revert s. induction addrs as [|a addrs IH]; intros s; simpl.
  - done.
  - destruct (decide (a ≠ ip.v6_any)) as [Ha|Ha]; [|done].
    rewrite Hfg; [|intros [[=]|[=]]; done].
    destruct (g _ s); simpl; auto.
Qed.

Lemma prohibit_v4_nics_ext f g nics p s :
  (∀ e s', ¬ wildcard e → f e s' = g e s') →
  prohibit_v4_nics f nics p s = prohibit_v4_nics g nics p s.
Proof.
  intros Hfg. revert s. induction nics as [|nic nics IH]; intros s; simpl.
  - done.
  - rewrite (prohibit_v4_addresses_ext f g) by done.
    destruct (prohibit_v4_addresses g _ p s); simpl; auto.
Qed.

Lemma prohibit_v6_nics_ext f g nics p s :
  (∀ e s', ¬ wildcard e → f e s' = g e s') →
  prohibit_v6_nics f nics p s = prohibit_v6_nics g nics p s.
Proof.
  intros Hfg. revert s. induction nics as [|nic nics IH]; intros s; simpl.
  - done.
  - rewrite (prohibit_v6_addresses_ext f g) by done.
    destruct (prohibit_v6_addresses g _ p s); simpl; auto.
Qed.

(** A non-wildcard endpoint takes neither expansion branch: one
    level of calls inserts it. *)
Lemma prohibitEndpoint_fuel_concrete n e s :
  ¬ wildcard e → prohibitEndpoint_fuel (S n) e s = Some (prohibit_one e s).
Proof.
  intros Hw. simpl.
  rewrite (bool_decide_eq_false_2 (address e = ip.V4 ip.v4_any))
    by (intros He; apply Hw; by left).
  rewrite (bool_decide_eq_false_2 (address e = ip.V6 ip.v6_any))
    by (intros He; apply Hw; by right).
  by rewrite !andb_false_r.
Qed.

(** The loops with a callee that inserts. *)
Lemma prohibit_v4_addresses_insert addrs p s :
  prohibit_v4_addresses (λ e s', Some (prohibit_one e s')) addrs p s
  = Some (prohibit_all (v4_targets addrs p) s).
Proof.
  revert s. induction addrs as [|a addrs IH]; intros s; simpl.
  - by rewrite prohibit_all_nil.
  - unfold v4_targets. rewrite filter_cons.
    destruct (decide (a ≠ ip.v4_any)) as [Ha|Ha]; simpl.
    + rewrite IH. by rewrite prohibit_all_cons.
    + apply IH.
Qed.

Lemma prohibit_v6_addresses_insert addrs p s :
  prohibit_v6_addresses (λ e s', Some (prohibit_one e s')) addrs p s
  = Some (prohibit_all (v6_targets addrs p) s).
Proof.
  revert s. induction addrs as [|a addrs IH]; intros s; simpl.
  - by rewrite prohibit_all_nil.
  - unfold v6_targets. rewrite filter_cons.
    destruct (decide (a ≠ ip.v6_any)) as [Ha|Ha]; simpl.
    + rewrite IH. by rewrite prohibit_all_cons.
    + apply IH.
Qed.

Lemma prohibit_v4_nics_insert nics p s :
  prohibit_v4_nics (λ e s', Some (prohibit_one e s')) nics p s
  = Some (prohibit_all (nics_v4_targets nics p) s).
Proof.
  revert s. induction nics as [|nic nics IH]; intros s; simpl.
  - by rewrite prohibit_all_nil.
  - rewrite prohibit_v4_addresses_insert. simpl. rewrite IH.
    by rewrite prohibit_all_app.
Qed.

Lemma prohibit_v6_nics_insert nics p s :
  prohibit_v6_nics (λ e s', Some (prohibit_one e s')) nics p s
  = Some (prohibit_all (nics_v6_targets nics p) s).
Proof.
  revert s. induction nics as [|nic nics IH]; intros s; simpl.
  - by rewrite prohibit_all_nil.
  - rewrite prohibit_v6_addresses_insert. simpl. rewrite IH.
    by rewrite prohibit_all_app.
Qed.

(** Two levels of calls are enough for every endpoint, and the
    result is the expansion and then the endpoint, inserted. *)
Lemma prohibitEndpoint_fuel_2 n e s :
  prohibitEndpoint_fuel (S (S n)) e s
  = Some (prohibit_one e (prohibit_all (expansion e) s)).
Proof.
  unfold expansion. cbn [prohibitEndpoint_fuel].
  destruct (ip.is_v4 (address e) && bool_decide (address e = ip.V4 ip.v4_any)).
  - rewrite (prohibit_v4_nics_ext _ (λ e s', Some (prohibit_one e s'))).
    + by rewrite prohibit_v4_nics_insert.
    + intros. by apply prohibitEndpoint_fuel_concrete.
  - destruct (ip.is_v6 (address e) && bool_decide (address e = ip.V6 ip.v6_any)).
    + rewrite (prohibit_v6_nics_ext _ (λ e s', Some (prohibit_one e s'))).
      * by rewrite prohibit_v6_nics_insert.
      * intros. by apply prohibitEndpoint_fuel_concrete.
    + simpl. by rewrite prohibit_all_nil.
Qed.

Lemma prohibitEndpoint_run e s :
  prohibitEndpoint e s = (Ret (), prohibit_one e (prohibit_all (expansion e) s)).
Proof.
  unfold prohibitEndpoint, modify. by rewrite prohibitEndpoint_fuel_2.
Qed.

Lemma size_union_le (X Y : gset Endpoint) : (size (X ∪ Y) ≤ size X + size Y)%nat.
Proof.
  rewrite size_union_alt.
  assert (size (Y ∖ X) ≤ size Y)%nat by (apply subseteq_size; set_solver).
  lia.
Qed.

Lemma size_list_to_set_le (l : list Endpoint) :
  (size (list_to_set l : gset Endpoint) ≤ length l)%nat.
Proof.
  induction l as [|x l IH].
  - by rewrite list_to_set_nil, size_empty.
  - rewrite list_to_set_cons. etransitivity; [apply size_union_le|].
    rewrite size_singleton. simpl. lia.
Qed.

Lemma length_nics_v4_targets nics p :
  (length (nics_v4_targets nics p) ≤ address_count nics)%nat.
Proof.
  induction nics as [|nic nics IH]; simpl; [done|].
  rewrite length_app. unfold v4_targets at 1. rewrite length_fmap.
  pose proof (length_filter (λ a, a ≠ ip.v4_any) (ipv4Addresses nic)).
  fold (nics_v4_targets nics p). lia.
Qed.

Lemma length_nics_v6_targets nics p :
  (length (nics_v6_targets nics p) ≤ address_count nics)%nat.
Proof.
  induction nics as [|nic nics IH]; simpl; [done|].
  rewrite length_app. unfold v6_targets at 1. rewrite length_fmap.
  pose proof (length_filter (λ a, a ≠ ip.v6_any) (ipv6Addresses nic)).
  fold (nics_v6_targets nics p). lia.
Qed.

Lemma length_expansion e :
  (length (expansion e) ≤ address_count listNetworkInterfaces)%nat.
Proof.
  unfold expansion.
  repeat case_match; auto using length_nics_v4_targets, length_nics_v6_targets.
  simpl. lia.
Qed.

Lemma elem_nics_v4_targets nics p e :
  e ∈ nics_v4_targets nics p ↔
  ∃ nic a, nic ∈ nics ∧ a ∈ ipv4Addresses nic ∧ a ≠ ip.v4_any
           ∧ e = mkEndpoint (ip.V4 a) p.
Proof.
  unfold nics_v4_targets, v4_targets. rewrite list_elem_of_bind. split.
  - intros [nic [He Hnic]]. apply list_elem_of_fmap in He as [a [-> Ha]].
    apply list_elem_of_filter in Ha as [Hne Ha]. by exists nic, a.
  - intros (nic & a & Hnic & Ha & Hne & ->). exists nic. split; [|done].
    apply list_elem_of_fmap. exists a. split; [done|].
    by apply list_elem_of_filter.
Qed.

Lemma elem_nics_v6_targets nics p e :
  e ∈ nics_v6_targets nics p ↔
  ∃ nic a, nic ∈ nics ∧ a ∈ ipv6Addresses nic ∧ a ≠ ip.v6_any
           ∧ e = mkEndpoint (ip.V6 a) p.
Proof.
  unfold nics_v6_targets, v6_targets. rewrite list_elem_of_bind. split.
  - intros [nic [He Hnic]]. apply list_elem_of_fmap in He as [a [-> Ha]].
    apply list_elem_of_filter in Ha as [Hne Ha]. by exists nic, a.
  - intros (nic & a & Hnic & Ha & Hne & ->). exists nic. split; [|done].
    apply list_elem_of_fmap. exists a. split; [done|].
    by apply list_elem_of_filter.
Qed.

Lemma expansion_v4 p :
  expansion (Endpoint_v4 p) = nics_v4_targets listNetworkInterfaces p.
Proof. reflexivity. Qed.

Lemma expansion_v6 p :
  expansion (Endpoint_v6 p) = nics_v6_targets listNetworkInterfaces p.
Proof. reflexivity. Qed.

(** C10.  [prohibitEndpoint] terminates on every input: two nested
    calls are enough whatever the endpoint and the state (any
    larger bound gives the same state, which is the one the
    factory continues with), the helpers call back on non-wildcard
    endpoints only (callees that agree on those give the same
    run), such a call takes the non-expanding branch and is done
    within one level, and the set grows by at most one endpoint
    per interface address and one for the endpoint itself. *)
Theorem prohibitEndpoint_terminates (endpoint : Endpoint) (s : State) :
  (∃ s', (∀ n, prohibitEndpoint_fuel (2 + n) endpoint s = Some s')
         ∧ prohibitEndpoint endpoint s = (Ret (), s')
         ∧ (size (m_prohibitedEndpoints s')
            ≤ size (m_prohibitedEndpoints s) + 1
              + address_count listNetworkInterfaces)%nat)
  ∧ (∀ f g p s0,
       (∀ e s1, ¬ wildcard e → f e s1 = g e s1) →
       prohibit_v4_nics f listNetworkInterfaces p s0
       = prohibit_v4_nics g listNetworkInterfaces p s0
       ∧ prohibit_v6_nics f listNetworkInterfaces p s0
         = prohibit_v6_nics g listNetworkInterfaces p s0)
  ∧ (∀ e s0 n,
       ¬ wildcard e →
       prohibitEndpoint_fuel (1 + n) e s0
       = Some (set_m_prohibitedEndpoints (λ X, {[e]} ∪ X) s0)).
Proof.
  split; [|split].
  - exists (prohibit_one endpoint (prohibit_all (expansion endpoint) s)).
    split; [|split].
    + intros n. apply prohibitEndpoint_fuel_2.
    + apply prohibitEndpoint_run.
    + simpl.
      pose proof (size_union_le {[endpoint]}
        (list_to_set (expansion endpoint) ∪ m_prohibitedEndpoints s)) as H1.
      pose proof (size_union_le (list_to_set (expansion endpoint))
        (m_prohibitedEndpoints s)) as H2.
      pose proof (size_list_to_set_le (expansion endpoint)) as H3.
      pose proof (length_expansion endpoint) as H4.
      rewrite size_singleton in H1. lia.
  - intros f g p s0 Hfg. split.
    + by apply prohibit_v4_nics_ext.
    + by apply prohibit_v6_nics_ext.
  - intros e s0 n Hw. by apply prohibitEndpoint_fuel_concrete.
Qed.

(** C3.  Prohibiting the IPv4 wildcard at port [p] leaves in the
    set every IPv4 address of every interface, at [p], and the
    wildcard endpoint itself, and adds no IPv6 endpoint; the same
    with the families exchanged. *)
Theorem wildcard_prohibition_expansion (p : N) (s : State) :
  (∃ s', prohibitEndpoint (Endpoint_v4 p) s = (Ret (), s')
     ∧ (∀ nic a, nic ∈ listNetworkInterfaces → a ∈ ipv4Addresses nic →
                 mkEndpoint (ip.V4 a) p ∈ m_prohibitedEndpoints s')
     ∧ Endpoint_v4 p ∈ m_prohibitedEndpoints s'
     ∧ (∀ e, ip.is_v6 (address e) = true →
             e ∈ m_prohibitedEndpoints s' → e ∈ m_prohibitedEndpoints s))
  ∧ (∃ s', prohibitEndpoint (Endpoint_v6 p) s = (Ret (), s')
     ∧ (∀ nic a, nic ∈ listNetworkInterfaces → a ∈ ipv6Addresses nic →
                 mkEndpoint (ip.V6 a) p ∈ m_prohibitedEndpoints s')
     ∧ Endpoint_v6 p ∈ m_prohibitedEndpoints s'
     ∧ (∀ e, ip.is_v4 (address e) = true →
             e ∈ m_prohibitedEndpoints s' → e ∈ m_prohibitedEndpoints s)).
Proof.
  split; eexists; (split; [apply prohibitEndpoint_run|]); simpl.
  - rewrite expansion_v4. split; [|split].
    + intros nic a Hnic Ha.
      destruct (decide (a = ip.v4_any)) as [->|Hne]; [set_solver|].
      apply elem_of_union_r, elem_of_union_l, elem_of_list_to_set.
      apply elem_nics_v4_targets. by exists nic, a.
    + set_solver.
    + intros e He. rewrite !elem_of_union, elem_of_singleton, elem_of_list_to_set.
      intros [->|[Hin|Hin]]; [done| |done].
      apply elem_nics_v4_targets in Hin as (nic & a & _ & _ & _ & ->). done.
  - rewrite expansion_v6. split; [|split].
    + intros nic a Hnic Ha.
      destruct (decide (a = ip.v6_any)) as [->|Hne]; [set_solver|].
      apply elem_of_union_r, elem_of_union_l, elem_of_list_to_set.
      apply elem_nics_v6_targets. by exists nic, a.
    + set_solver.
    + intros e He. rewrite !elem_of_union, elem_of_singleton, elem_of_list_to_set.
      intros [->|[Hin|Hin]]; [done| |done].
      apply elem_nics_v6_targets in Hin as (nic & a & _ & _ & _ & ->). done.
Qed.

End prohibit.
End TcpFactory_prohibit.

(** ** The TCP factory: outbound faces *)

Module TcpFactory_createFace.
Import TcpFactory.

Section createFace.
Context `{Platform}.

(** A violated gate with no earlier violated gate decides the call. *)
Lemma call_earliest s r g :
  isCanonical (remoteUri r) = true →
  violates s r g = true →
  (∀ g', (gate_number g' < gate_number g)%nat → violates s r g' = false) →
  rejected_by s r g.
Proof.
  intros Hc Hg Hbefore. unfold rejected_by, call, createFace. rewrite Hc. simpl.
  pose proof (Hbefore LocalUriPresent) as H1.
  pose proof (Hbefore OnDemandPersistency) as H2.
  pose proof (Hbefore MulticastAddress) as H4.
  pose proof (Hbefore ProhibitedEndpoint) as H5.
  destruct g; simpl in *.
  - by rewrite Hg.
  - rewrite H1 by lia. by rewrite Hg.
  - rewrite H1, H2 by lia.
    destruct (resolve (remoteUri r)); [|done]. by rewrite Hg.
  - rewrite H1, H2 by lia. specialize (H4 ltac:(lia)).
    destruct (resolve (remoteUri r)); [|done]. by rewrite H4, Hg.
  - rewrite H1, H2 by lia. specialize (H4 ltac:(lia)). specialize (H5 ltac:(lia)).
    destruct (resolve (remoteUri r)); [|done]. by rewrite H4, H5, Hg.
Qed.

Lemma rejection_inj g g' : rejection g = rejection g' → g = g'.
Proof. destruct g, g'; simpl; intros [=]; reflexivity. Qed.

Lemma gate_number_inj g g' : gate_number g = gate_number g' → g = g'.
Proof. destruct g, g'; simpl; intros [=]; reflexivity. Qed.

(** Some violated gate is the earliest one. *)
Lemma earliest_exists s r g0 :
  violates s r g0 = true →
  ∃ g, violates s r g = true
       ∧ ∀ g', (gate_number g' < gate_number g)%nat → violates s r g' = false.
Proof.
  intros H0.
  destruct (violates s r LocalUriPresent) eqn:E1;
    [exists LocalUriPresent; split; [done|]; intros [] ?; simpl in *; lia|].
  destruct (violates s r OnDemandPersistency) eqn:E2;
    [exists OnDemandPersistency; split; [done|];
     intros [] ?; simpl in *; done || lia|].
  destruct (violates s r MulticastAddress) eqn:E4;
    [exists MulticastAddress; split; [done|];
     intros [] ?; simpl in *; done || lia|].
  destruct (violates s r ProhibitedEndpoint) eqn:E5;
    [exists ProhibitedEndpoint; split; [done|];
     intros [] ?; simpl in *; done || lia|].
  destruct (violates s r LocalFieldsNotLoopback) eqn:E6;
    [exists LocalFieldsNotLoopback; split; [done|];
     intros [] ?; simpl in *; done || lia|].
  destruct g0; congruence.
Qed.

(** C1.  When a request violates two gates (or more), the call
    reports the code and reason of the violated gate that comes first
    in the order 1, 2, 4, 5, 6, and of no other violated gate; a
    request with a local URI and on-demand persistency is rejected
    for the local URI. *)
Theorem gate_ordering (s : State) (r : Request) (g1 g2 : Gate) :
  isCanonical (remoteUri r) = true →
  g1 ≠ g2 →
  violates s r g1 = true →
  violates s r g2 = true →
  (∃ g, violates s r g = true
        ∧ (∀ g', violates s r g' = true → (gate_number g ≤ gate_number g')%nat)
        ∧ rejected_by s r g
        ∧ (∀ g', violates s r g' = true → g' ≠ g → ¬ rejected_by s r g'))
  ∧ (g1 = LocalUriPresent → g2 = OnDemandPersistency →
     call s r = OnFailure (onFailure r) 406
                  "Unicast TCP faces cannot be created with a LocalUri").
Proof.
  intros Hc Hne Hv1 Hv2.
  destruct (earliest_exists s r g1 Hv1) as (g & Hg & Hmin).
  pose proof (call_earliest s r g Hc Hg Hmin) as Hrej.
  split.
  - exists g. split; [done|]. split; [|split; [done|]].
    + intros g' Hg'.
      destruct (decide (gate_number g' < gate_number g)%nat) as [Hlt|]; [|lia].
      apply Hmin in Hlt. congruence.
    + intros g' _ Hne' Hrej'. unfold rejected_by in *.
      rewrite Hrej in Hrej'. apply Hne'. symmetry. apply rejection_inj.
      injection Hrej' as Hcode Hreason.
      destruct (rejection g), (rejection g'); simpl in *; congruence.
  - intros -> ->.
    apply (call_earliest s r LocalUriPresent Hc Hv1).
    intros [] ?; simpl in *; lia.
Qed.

(** *** Channel selection *)

Lemma select_channel_first m endpoint before k channel after :
  m = before ++ (k, channel) :: after →
  same_family (address k) (address endpoint) = true →
  (∀ e, e ∈ before → same_family (address e.1) (address endpoint) = false) →
  select_channel m endpoint = Some channel.
Proof.
  intros -> Hk. induction before as [|e before IH]; intros Hbefore; simpl.
  - unfold same_family in Hk. by rewrite Hk.
  - pose proof (Hbefore e ltac:(left)) as He. unfold same_family in He.
    rewrite He. apply IH. intros e' He'. apply Hbefore. by right.
Qed.

Lemma select_channel_None m endpoint :
  select_channel m endpoint = None ↔
  ∀ e, e ∈ m → same_family (address e.1) (address endpoint) = false.
Proof.
  induction m as [|e m IH]; simpl.
  - split; [|done]. intros _ e He. by apply elem_of_nil in He.
  - fold (same_family (address e.1) (address endpoint)).
    destruct (same_family (address e.1) (address endpoint)) eqn:He.
    + split; [done|]. intros Hall. specialize (Hall e ltac:(left)). congruence.
    + rewrite IH. split.
      * intros Hall e' He'. apply elem_of_cons in He' as [->|He']; auto.
      * intros Hall e' He'. apply Hall. by right.
Qed.

(** A request that no gate rejects and that resolves reaches the
    channel selection. *)
Lemma call_selects s r endpoint :
  isCanonical (remoteUri r) = true →
  (∀ g, violates s r g = false) →
  resolve (remoteUri r) = Some endpoint →
  call s r =
    match select_channel (m_channels s) endpoint with
    | Some channel =>
        ChannelConnect channel endpoint (persistency r)
          (wantLocalFieldsEnabled r) (onCreated r) (onFailure r)
    | None => OnFailure (onFailure r) 504 "No channels available to connect"
    end.
Proof.
  intros Hc Hpass Hres. unfold call, createFace. rewrite Hc. simpl.
  pose proof (Hpass LocalUriPresent) as H1.
  pose proof (Hpass OnDemandPersistency) as H2.
  pose proof (Hpass MulticastAddress) as H4.
  pose proof (Hpass ProhibitedEndpoint) as H5.
  pose proof (Hpass LocalFieldsNotLoopback) as H6.
  simpl in *. rewrite Hres in *. by rewrite H1, H2, H4, H5, H6.
Qed.

(** C7.  A request that passes every policy gate is handed to the
    first channel, in the order of the registry, whose key (the
    channel's local endpoint) is of the family of the resolved remote
    endpoint, together with the endpoint, the persistency, the
    local-fields flag and both callbacks; and the factory calls the
    failure callback, with code 504, exactly when the registry has no
    channel of that family. *)
Theorem channel_selection (s : State) (r : Request) (endpoint : Endpoint) :
  isCanonical (remoteUri r) = true →
  (∀ g, violates s r g = false) →
  resolve (remoteUri r) = Some endpoint →
  (∀ before k channel after,
     m_channels s = before ++ (k, channel) :: after →
     same_family (address k) (address endpoint) = true →
     (∀ e, e ∈ before → same_family (address e.1) (address endpoint) = false) →
     call s r = ChannelConnect channel endpoint (persistency r)
                  (wantLocalFieldsEnabled r) (onCreated r) (onFailure r))
  ∧ ((∃ cb code reason, call s r = OnFailure cb code reason) ↔
     (∀ e, e ∈ m_channels s →
           same_family (address e.1) (address endpoint) = false))
  ∧ (∀ cb code reason,
       call s r = OnFailure cb code reason →
       cb = onFailure r ∧ code = 504
       ∧ reason = "No channels available to connect").
Proof.
  intros Hc Hpass Hres. rewrite (call_selects s r endpoint Hc Hpass Hres).
  split; [|split].
  - intros before k channel after Hm Hk Hbefore.
    by rewrite (select_channel_first _ _ _ _ _ _ Hm Hk Hbefore).
  - rewrite <- select_channel_None.
    destruct (select_channel (m_channels s) endpoint); split; try done.
    + by intros (cb & code & reason & ?).
    + intros _. eauto.
  - intros cb code reason.
    destruct (select_channel (m_channels s) endpoint); intros [=]; by subst.
Qed.

(** *** Resolution failure *)

Lemma resolve_None uri :
  resolve uri = None ↔
  from_string (getHost uri) = None ∨ lexical_cast_uint16 (getPort uri) = None.
Proof.
  unfold resolve.
  destruct (from_string (getHost uri)), (lexical_cast_uint16 (getPort uri));
    naive_solver.
Qed.

(** C8, as amended.  When a request is not already rejected by gate 1
    or gate 2 and its remote host or port string does not resolve,
    the call leaves by the exception: the failure callback is not
    called with any code, and neither the prohibited set, nor the
    registry, nor the local-fields flag is looked at. *)
Theorem resolution_failure_is_thrown (s : State) (r : Request) :
  isCanonical (remoteUri r) = true →
  localUri r = None →
  persistency r ≠ FACE_PERSISTENCY_ON_DEMAND →
  from_string (getHost (remoteUri r)) = None
  ∨ lexical_cast_uint16 (getPort (remoteUri r)) = None →
  call s r = Thrown
  ∧ (∀ cb code reason, call s r ≠ OnFailure cb code reason)
  ∧ (∀ s' want,
       createFace s' (remoteUri r) (localUri r) (persistency r) want
                  (onCreated r) (onFailure r) = Thrown).
Proof.
  intros Hc Hl Hp Hres. apply resolve_None in Hres.
  assert (∀ s' want,
            createFace s' (remoteUri r) (localUri r) (persistency r) want
                       (onCreated r) (onFailure r) = Thrown) as Hall.
  { intros s' want. unfold createFace. rewrite Hc, Hl, Hres. simpl.
    by rewrite bool_decide_eq_false_2. }
  split; [apply Hall|]. split; [|done].
  intros cb code reason. unfold call. by rewrite Hall.
Qed.

End createFace.

(** One request that names a local URI and asks for on-demand
    persistency. *)
Lemma gate_ordering_witness :
  let r := mkRequest (sample.uri "192.0.2.1" "6363")
                     (Some (sample.uri "192.0.2.7" "6363"))
                     FACE_PERSISTENCY_ON_DEMAND false 1%nat 2%nat in
  call (H := sample.platform) initial r
  = OnFailure 2%nat 406 "Unicast TCP faces cannot be created with a LocalUri".
Proof.
  intros r.
  apply (proj2 (gate_ordering (H := sample.platform) initial r
                  LocalUriPresent OnDemandPersistency
                  eq_refl ltac:(discriminate) eq_refl eq_refl));
    reflexivity.
Defined.

Lemma channel_selection_witness :
  let r := mkRequest (sample.uri "2001:db8::7" "6363") None
                     FACE_PERSISTENCY_PERSISTENT false 1%nat 2%nat in
  call (H := sample.platform) sample.two_channels r
  = ChannelConnect 1%nat
      (mkEndpoint (ip.V6 (ip.mk_v6 0x20010db8000000000000000000000007 0)) 6363)
      FACE_PERSISTENCY_PERSISTENT false 1%nat 2%nat.
Proof.
  intros r.
  refine (proj1 (channel_selection (H := sample.platform) sample.two_channels r _
                   eq_refl _ eq_refl)
            [(Endpoint_v4 6363, 0%nat)] (Endpoint_v6 6363) 1%nat [] eq_refl eq_refl _).
  - intros []; vm_compute; reflexivity.
  - intros e He. apply list_elem_of_singleton in He. subst e. reflexivity.
Defined.

(** C8, counterexample.  The port of this (canonical) remote URI is
    no 16-bit number, so the URI does not resolve; yet nothing is
    thrown: the request names a local URI, so the call ends at
    gate 1, with code 406 on the failure callback, before the
    resolution is attempted. *)
Lemma unresolvable_port_behind_gate_1 :
  let r := mkRequest (sample.uri "192.0.2.1" "70000")
                     (Some (sample.uri "192.0.2.7" "6363"))
                     FACE_PERSISTENCY_PERSISTENT false 1%nat 2%nat in
  isCanonical (remoteUri r) = true
  ∧ lexical_cast_uint16 (Platform := sample.platform) (getPort (remoteUri r))
    = None
  ∧ call (H := sample.platform) initial r
    = OnFailure 2%nat 406 "Unicast TCP faces cannot be created with a LocalUri"
  ∧ call (H := sample.platform) initial r ≠ Thrown.
Proof. repeat split. discriminate. Qed.

Lemma resolution_failure_is_thrown_witness :
  let r := mkRequest (sample.uri "192.0.2.1" "70000") None
                     FACE_PERSISTENCY_PERSISTENT true 1%nat 2%nat in
  call (H := sample.platform) sample.two_channels r = Thrown.
Proof.
  intros r.
  apply (resolution_failure_is_thrown (H := sample.platform) sample.two_channels r
           eq_refl eq_refl ltac:(discriminate) (or_intror eq_refl)).
Defined.

End TcpFactory_createFace.

(** ** The TCP factory: the channel registry *)

Module TcpFactory_registry.
Import TcpFactory TcpFactory_prohibit std_map_facts.

Lemma bind_run {S E A B} (m : M S E A) (f : A → M S E B) (s : S) :
  (m ≫= f) s = match m s with
               | (Ret a, s') => f a s'
               | (Throw e, s') => (Throw e, s')
               end.
Proof. reflexivity. Qed.

Lemma registry_ok_initial : registry_ok initial.
Proof.
  split; [apply ordered_nil|]. intros k p Hin. by apply elem_of_nil in Hin.
Qed.

Lemma registry_ok_prohibited f s :
  registry_ok s → registry_ok (set_m_prohibitedEndpoints f s).
Proof. done. Qed.

Lemma registry_ok_schemes f s :
  registry_ok s → registry_ok (set_providedSchemes f s).
Proof. done. Qed.

Lemma registry_ok_listen p cb s :
  registry_ok s →
  registry_ok (set_channels (λ h, <[p := TcpChannel_listen cb (h p)]> h) s).
Proof.
  intros [Hord Hptr]. split; [done|]. simpl. intros k q Hin.
  destruct (Hptr k q Hin) as [Hlt Hk]. split; [done|].
  destruct (decide (p = q)) as [->|Hne].
  - by rewrite fn_lookup_insert.
  - by rewrite fn_lookup_insert_ne.
Qed.

Section registry.
Context `{Platform}.

Lemma createChannel_found endpoint s channel :
  findChannel endpoint s = Some channel →
  createChannel endpoint s = (Ret channel, s).
Proof.
  intros Hf. unfold createChannel. rewrite bind_run. simpl. by rewrite Hf.
Qed.

Lemma createChannel_new endpoint s :
  findChannel endpoint s = None →
  createChannel endpoint s = (Ret (next_channel s), registered endpoint s).
Proof.
  intros Hf. unfold createChannel. rewrite bind_run. simpl. rewrite Hf.
  rewrite bind_run. simpl. rewrite bind_run. simpl. rewrite bind_run.
  by rewrite prohibitEndpoint_run.
Qed.

Lemma registry_ok_registered endpoint s :
  registry_ok s → findChannel endpoint s = None →
  registry_ok (registered endpoint s).
Proof.
  intros [Hord Hptr] Hf. split; simpl.
  - by apply assign_ordered.
  - intros k p Hin.
    destruct (decide (k = endpoint)) as [->|Hne].
    + apply elem_find in Hin; [|by apply assign_ordered].
      rewrite find_assign in Hin. injection Hin as <-.
      split; [lia|]. by rewrite fn_lookup_insert.
    + apply elem_find in Hin; [|by apply assign_ordered].
      rewrite find_assign_ne in Hin by done.
      apply find_Some_elem in Hin. destruct (Hptr k p Hin) as [Hlt Hk].
      split; [lia|]. rewrite fn_lookup_insert_ne by lia. done.
Qed.

Lemma createChannel_ok endpoint s :
  registry_ok s → registry_ok (createChannel endpoint s).2.
Proof.
  intros Hok. destruct (findChannel endpoint s) as [channel|] eqn:Hf.
  - by rewrite (createChannel_found _ _ _ Hf).
  - rewrite (createChannel_new _ _ Hf). by apply registry_ok_registered.
Qed.

(** C4.  [createChannel] is idempotent.  Whatever the endpoint, the
    call returns a channel and leaves it registered under the
    endpoint; a second call with the same endpoint returns the same
    channel object and changes nothing, and the registry has exactly
    one entry keyed by the endpoint.  A call that finds no channel
    at the endpoint registers a newly made one (a pointer that no
    entry had, to a channel constructed at the endpoint) and
    prohibits the endpoint, leaving the other endpoints' entries as
    they were; a call that finds one returns it and changes
    nothing. *)
Theorem createChannel_idempotent (endpoint : Endpoint) (s : State) :
  registry_ok s →
  ∃ channel s1,
    createChannel endpoint s = (Ret channel, s1)
    ∧ createChannel endpoint s1 = (Ret channel, s1)
    ∧ findChannel endpoint s1 = Some channel
    ∧ std_map.count endpoint (m_channels s1) = 1%nat
    ∧ registry_ok s1
    ∧ (findChannel endpoint s = None →
       channel = next_channel s
       ∧ (∀ k p, (k, p) ∈ m_channels s → p ≠ channel)
       ∧ channels s1 channel = TcpChannel_new endpoint
       ∧ endpoint ∈ m_prohibitedEndpoints s1
       ∧ (∀ k, k ≠ endpoint → findChannel k s1 = findChannel k s))
    ∧ (∀ channel0, findChannel endpoint s = Some channel0 →
                   channel = channel0 ∧ s1 = s).
Proof.
  intros Hok. destruct (findChannel endpoint s) as [channel|] eqn:Hf.
  - exists channel, s. rewrite (createChannel_found _ _ _ Hf).
    split; [done|]. split; [done|]. split; [done|]. split; [|split; [done|split]].
    + apply (find_Some_count _ channel); [apply Hok | exact Hf].
    + done.
    + by intros channel0 [= ->].
  - exists (next_channel s), (registered endpoint s).
    assert (findChannel endpoint (registered endpoint s) = Some (next_channel s))
      as Hf1 by apply find_assign.
    rewrite (createChannel_new _ _ Hf), (createChannel_found _ _ _ Hf1).
    split; [done|]. split; [done|]. split; [done|]. split; [|split; [|split]].
    + apply count_assign, Hok.
    + by apply registry_ok_registered.
    + intros _. split; [done|]. split; [|split; [|split]].
      * intros k p Hin. destruct Hok as [_ Hptr].
        destruct (Hptr k p Hin). lia.
      * simpl. by rewrite fn_lookup_insert.
      * simpl. set_solver.
      * intros k Hne. by apply find_assign_ne.
    + done.
Qed.

End registry.

Lemma createChannel_idempotent_witness :
  ∃ channel s1,
    createChannel (H := sample.platform) (Endpoint_v4 6363) initial
    = (Ret channel, s1)
    ∧ createChannel (H := sample.platform) (Endpoint_v4 6363) s1
      = (Ret channel, s1)
    ∧ std_map.count (Endpoint_v4 6363) (m_channels s1) = 1%nat.
Proof.
  destruct (createChannel_idempotent (H := sample.platform) (Endpoint_v4 6363)
              initial registry_ok_initial)
    as (channel & s1 & H1 & H2 & _ & H4 & _).
  exists channel, s1. auto.
Defined.

End TcpFactory_registry.

(** ** The TCP factory: configuration *)

Module TcpFactory_config.
Import TcpFactory TcpFactory_prohibit TcpFactory_registry.

Lemma returns_ret {S E A} (a : A) : returns (mret a : M S E A).
Proof. intros s. by exists a, s. Qed.

Lemma returns_modify {S E} (f : S → S) : returns (modify f : M S E ()).
Proof. intros s. by exists (), (f s). Qed.

Lemma returns_bind {S E A B} (m : M S E A) (f : A → M S E B) :
  returns m → (∀ a, returns (f a)) → returns (m ≫= f).
Proof.
  intros Hm Hf s. rewrite bind_run. destruct (Hm s) as (a & s' & ->). apply Hf.
Qed.

Lemma returns_when {S E} (b : bool) (m : M S E ()) :
  returns m → returns (when b m).
Proof. intros Hm. destruct b; [done|apply returns_ret]. Qed.

Lemma preserves_modify {S E} (P : S → Prop) (f : S → S) :
  (∀ s, P s → P (f s)) → preserves P (modify f : M S E ()).
Proof. intros Hf s. apply Hf. Qed.

Lemma preserves_bind {S E A B} (P : S → Prop) (m : M S E A) (f : A → M S E B) :
  preserves P m → (∀ a, preserves P (f a)) → preserves P (m ≫= f).
Proof.
  intros Hm Hf s Hs. rewrite bind_run. specialize (Hm s Hs).
  destruct (m s) as [[a|e] s']; [by apply Hf|done].
Qed.

Lemma preserves_when {S E} (P : S → Prop) (b : bool) (m : M S E ()) :
  preserves P m → preserves P (when b m).
Proof. intros Hm. destruct b; [done|]. by intros s. Qed.

Section config.
Context `{Platform}.

Lemma parse_section_cons kv rest o s :
  parse_section (kv :: rest) o s =
  match parse_entry kv o with
  | inr o' => parse_section rest o' s
  | inl msg => (Throw (ConfigFile_Error msg), s)
  end.
Proof.
  unfold parse_entry. cbn [parse_section].
  repeat (case_match; try reflexivity);
    rewrite bind_run; simplify_eq; reflexivity.
Qed.

(** The loop touches no state. *)
Lemma parse_section_state sec o s : (parse_section sec o s).2 = s.
Proof.
  revert o. induction sec as [|kv sec IH]; intros o; [done|].
  rewrite parse_section_cons. by destruct (parse_entry kv o).
Qed.

Lemma parse_entry_unrecognized kv o :
  kv.1 ∉ recognized → ∃ msg, parse_entry kv o = inl msg.
Proof.
  unfold recognized, parse_entry. rewrite !not_elem_of_cons.
  intros (H1 & H2 & H3 & H4 & _).
  apply String.eqb_neq in H1, H2, H3, H4. rewrite H1, H2, H3, H4. eauto.
Qed.

Lemma parse_section_unrecognized sec o s :
  has_unrecognized_key sec →
  ∃ msg, parse_section sec o s = (Throw (ConfigFile_Error msg), s).
Proof.
  intros (kv & Hin & Hkey). revert o.
  induction sec as [|kv' sec IH]; intros o.
  - by apply elem_of_nil in Hin.
  - rewrite parse_section_cons. apply elem_of_cons in Hin as [<-|Hin].
    + destruct (parse_entry_unrecognized kv o Hkey) as [msg ->]. eauto.
    + destruct (parse_entry kv' o); eauto.
Qed.

Lemma parse_section_app sec1 sec2 o s o' :
  parse_section (sec1 ++ sec2) o s = (Ret o', s) →
  ∃ o1, parse_section sec1 o s = (Ret o1, s)
        ∧ parse_section sec2 o1 s = (Ret o', s).
Proof.
  revert o. induction sec1 as [|kv sec1 IH]; intros o; simpl app.
  - intros Hp. by exists o.
  - rewrite !parse_section_cons. destruct (parse_entry kv o); [done|]. apply IH.
Qed.

(** Entries for other keys leave a family's flag as it is. *)
Lemma parse_section_keeps_v4 sec o s o' :
  (∀ kv, kv ∈ sec → kv.1 ≠ "enable_v4") →
  parse_section sec o s = (Ret o', s) → enableV4 o' = enableV4 o.
Proof.
  revert o. induction sec as [|kv sec IH]; intros o Hkeys.
  - by intros [= ->].
  - rewrite parse_section_cons.
    pose proof (Hkeys kv ltac:(left)) as Hkv. apply String.eqb_neq in Hkv.
    destruct (parse_entry kv o) as [msg|o1] eqn:He; [done|].
    intros Hp. rewrite (IH o1); [|intros; apply Hkeys; by right|done].
    unfold parse_entry in He. rewrite Hkv in He.
    repeat case_match; simplify_eq; reflexivity.
Qed.

Lemma parse_section_keeps_v6 sec o s o' :
  (∀ kv, kv ∈ sec → kv.1 ≠ "enable_v6") →
  parse_section sec o s = (Ret o', s) → enableV6 o' = enableV6 o.
Proof.
  revert o. induction sec as [|kv sec IH]; intros o Hkeys.
  - by intros [= ->].
  - rewrite parse_section_cons.
    pose proof (Hkeys kv ltac:(left)) as Hkv. apply String.eqb_neq in Hkv.
    destruct (parse_entry kv o) as [msg|o1] eqn:He; [done|].
    intros Hp. rewrite (IH o1); [|intros; apply Hkeys; by right|done].
    unfold parse_entry in He. rewrite Hkv in He.
    repeat case_match; simplify_eq; reflexivity.
Qed.

Lemma parse_section_v4_no sec o s o' :
  set_to_no "enable_v4" sec →
  parse_section sec o s = (Ret o', s) → enableV4 o' = false.
Proof.
  intros (before & kv & after & -> & Hkey & Hno & Hafter) Hp.
  apply parse_section_app in Hp as (o1 & _ & Hp).
  rewrite parse_section_cons in Hp.
  destruct (parse_entry kv o1) as [msg|o2] eqn:He; [done|].
  rewrite (parse_section_keeps_v4 _ _ _ _ Hafter Hp).
  unfold parse_entry in He. rewrite Hkey, Hno in He. simpl in He.
  by simplify_eq.
Qed.

Lemma parse_section_v6_no sec o s o' :
  set_to_no "enable_v6" sec →
  parse_section sec o s = (Ret o', s) → enableV6 o' = false.
Proof.
  intros (before & kv & after & -> & Hkey & Hno & Hafter) Hp.
  apply parse_section_app in Hp as (o1 & _ & Hp).
  rewrite parse_section_cons in Hp.
  destruct (parse_entry kv o1) as [msg|o2] eqn:He; [done|].
  rewrite (parse_section_keeps_v6 _ _ _ _ Hafter Hp).
  unfold parse_entry in He. rewrite Hkey, Hno in He. simpl in He.
  by simplify_eq.
Qed.

(** *** Applying a validated section never throws *)

Lemma returns_createChannel endpoint : returns (createChannel endpoint).
Proof.
  intros s. destruct (findChannel endpoint s) as [channel|] eqn:Hf.
  - rewrite (createChannel_found _ _ _ Hf). eauto.
  - rewrite (createChannel_new _ _ Hf). eauto.
Qed.

Lemma returns_enable_family endpoint scheme o context :
  returns (enable_family endpoint scheme o context).
Proof.
  unfold enable_family.
  apply returns_bind; [apply returns_createChannel|]. intros channel.
  apply returns_bind.
  { intros s. unfold channel_isListening. rewrite bind_run. simpl. eauto. }
  intros listening. apply returns_bind.
  - apply returns_when, returns_modify.
  - intros _. apply returns_modify.
Qed.

Lemma returns_apply_options o context : returns (apply_options o context).
Proof.
  unfold apply_options. apply returns_when.
  apply returns_bind; [apply returns_modify|]. intros _.
  apply returns_bind; [apply returns_when, returns_enable_family|]. intros _.
  apply returns_when, returns_enable_family.
Qed.

Lemma apply_options_dry_run o context s :
  isDryRun context = true → apply_options o context s = (Ret (), s).
Proof. intros Hdry. unfold apply_options. by rewrite Hdry. Qed.

Lemma processConfig_run sec context s :
  processConfig (Some sec) context s =
  match parse_section sec default_options s with
  | (Ret o, s') =>
      if negb (enableV4 o) && negb (enableV6 o)
      then (Throw (ConfigFile_Error both_disabled_message), s')
      else apply_options o context s'
  | (Throw e, s') => (Throw e, s')
  end.
Proof.
  unfold processConfig. rewrite bind_run.
  destruct (parse_section sec default_options s) as [[o|e] s']; [|done].
  by destruct (negb (enableV4 o) && negb (enableV6 o)).
Qed.

(** The verdict of a call (whether it throws, and what) is that of
    the validation, with or without dry-run. *)
Lemma processConfig_verdict configSection context context' s :
  (processConfig configSection context s).1
  = (processConfig configSection context' s).1.
Proof.
  destruct configSection as [sec|]; [|done].
  rewrite !processConfig_run.
  destruct (parse_section sec default_options s) as [[o|e] s']; [|done].
  destruct (negb (enableV4 o) && negb (enableV6 o)); [done|].
  destruct (returns_apply_options o context s') as ([] & s1 & ->).
  destruct (returns_apply_options o context' s') as ([] & s2 & ->).
  done.
Qed.

(** A call that throws has changed nothing. *)
Lemma processConfig_throw_state configSection context s e s' :
  processConfig configSection context s = (Throw e, s') → s' = s.
Proof.
  destruct configSection as [sec|]; [|done].
  rewrite processConfig_run.
  pose proof (parse_section_state sec default_options s) as Hs.
  destruct (parse_section sec default_options s) as [[o|e0] s0];
    simpl in Hs; subst s0.
  - destruct (negb (enableV4 o) && negb (enableV6 o)); [by intros [= _ ->]|].
    destruct (returns_apply_options o context s) as ([] & s1 & ->). done.
  - by intros [= _ ->].
Qed.

Lemma processConfig_rejected sec context s :
  rejected sec →
  ∃ msg, processConfig (Some sec) context s = (Throw (ConfigFile_Error msg), s).
Proof.
  intros Hrej. rewrite processConfig_run.
  destruct Hrej as [Hkey|[H4 H6]].
  - destruct (parse_section_unrecognized sec default_options s Hkey) as [msg ->].
    eauto.
  - pose proof (parse_section_state sec default_options s) as Hs.
    destruct (parse_section sec default_options s) as [[o|[msg]] s0] eqn:Hp;
      simpl in Hs; subst s0; [|eauto].
    rewrite (parse_section_v4_no _ _ _ _ H4 Hp),
            (parse_section_v6_no _ _ _ _ H6 Hp). simpl. eauto.
Qed.

(** C5.  A section that is rejected, for a key that is not
    recognized or for both families set to no, makes [processConfig]
    throw a [ConfigFile::Error] and leaves the factory as it was: its
    registry and its provided schemes are those before the call (and
    so is all the rest); indeed no call that throws has changed
    anything. *)
Theorem rejected_config_leaves_state (s : State) (sec : ConfigSection)
    (context : ConfigContext) :
  rejected sec →
  (∃ msg s',
     processConfig (Some sec) context s = (Throw (ConfigFile_Error msg), s')
     ∧ m_channels s' = m_channels s
     ∧ providedSchemes s' = providedSchemes s
     ∧ s' = s)
  ∧ (∀ e s', processConfig (Some sec) context s = (Throw e, s') → s' = s).
Proof.
  intros Hrej. split.
  - destruct (processConfig_rejected sec context s Hrej) as [msg Hp].
    by exists msg, s.
  - intros e s'. apply processConfig_throw_state.
Qed.

(** C9.  With the dry-run flag set, [processConfig] validates as it
    does otherwise (the call throws exactly when the call without the
    flag throws, with the same error: a rejected section still
    throws) and changes nothing: the registry, the channel objects
    (no channel made, none listening that was not), the provided
    schemes and the prohibited endpoints are those before the call. *)
Theorem dry_run_changes_nothing (s : State) (configSection : option ConfigSection)
    (context : ConfigContext) :
  isDryRun context = true →
  ∃ r, processConfig configSection context s = (r, s)
       ∧ (∀ context', (processConfig configSection context' s).1 = r)
       ∧ (∀ sec, configSection = Some sec → rejected sec →
                 ∃ msg, r = Throw (ConfigFile_Error msg)).
Proof.
  intros Hdry.
  assert ((processConfig configSection context s).2 = s) as Hs.
  { destruct configSection as [sec|]; [|done].
    rewrite processConfig_run.
    pose proof (parse_section_state sec default_options s) as Hs.
    destruct (parse_section sec default_options s) as [[o|e0] s0];
      simpl in Hs; subst s0; [|done].
    destruct (negb (enableV4 o) && negb (enableV6 o)); [done|].
    by rewrite apply_options_dry_run. }
  exists (processConfig configSection context s).1.
  split; [|split].
  - rewrite <- Hs at 3. by destruct (processConfig configSection context s).
  - intros context'. apply processConfig_verdict.
  - intros sec -> Hrej.
    destruct (processConfig_rejected sec context s Hrej) as [msg ->]. eauto.
Qed.

(** *** Every configuration call keeps the registry invariant *)

Lemma preserves_createChannel endpoint :
  preserves registry_ok (createChannel endpoint).
Proof. intros s. apply createChannel_ok. Qed.

Lemma preserves_enable_family endpoint scheme o context :
  preserves registry_ok (enable_family endpoint scheme o context).
Proof.
  unfold enable_family.
  apply preserves_bind; [apply preserves_createChannel|]. intros channel.
  apply preserves_bind.
  { intros s Hs. unfold channel_isListening. by rewrite bind_run. }
  intros listening. apply preserves_bind.
  - apply preserves_when, preserves_modify. intros s. apply registry_ok_listen.
  - intros _. apply preserves_modify. intros s. apply registry_ok_schemes.
Qed.

Lemma preserves_apply_options o context :
  preserves registry_ok (apply_options o context).
Proof.
  unfold apply_options. apply preserves_when.
  apply preserves_bind.
  { apply preserves_modify. intros s. apply registry_ok_schemes. }
  intros _. apply preserves_bind; [apply preserves_when, preserves_enable_family|].
  intros _. apply preserves_when, preserves_enable_family.
Qed.

Lemma processConfig_ok configSection context :
  preserves registry_ok (processConfig configSection context).
Proof.
  intros s Hs. destruct configSection as [sec|]; [|done].
  rewrite processConfig_run.
  pose proof (parse_section_state sec default_options s) as Hst.
  destruct (parse_section sec default_options s) as [[o|e0] s0];
    simpl in Hst; subst s0; [|done].
  destruct (negb (enableV4 o) && negb (enableV6 o)); [done|].
  by apply preserves_apply_options.
Qed.

End config.

Lemma rejected_families_off : rejected (H := sample.platform) sample.families_off.
Proof.
  right. split.
  - exists [("port", "6363")], ("enable_v4", "no"), [("enable_v6", "no")].
    repeat split. intros kv Hkv. apply list_elem_of_singleton in Hkv. by subst.
  - exists [("port", "6363"); ("enable_v4", "no")], ("enable_v6", "no"), [].
    repeat split. intros kv Hkv. by apply elem_of_nil in Hkv.
Qed.

Lemma rejected_config_leaves_state_witness :
  ∃ msg,
    processConfig (H := sample.platform) (Some sample.families_off)
                  (mkContext false 7%nat) sample.two_channels
    = (Throw (ConfigFile_Error msg), sample.two_channels).
Proof.
  destruct (proj1 (rejected_config_leaves_state (H := sample.platform)
                     sample.two_channels sample.families_off
                     (mkContext false 7%nat) rejected_families_off))
    as (msg & s' & Hp & _ & _ & ->).
  by exists msg.
Defined.

Lemma dry_run_changes_nothing_witness :
  ∃ r,
    processConfig (H := sample.platform)
                  (Some [("listen", "yes"); ("port", "6363")])
                  (mkContext true 7%nat) initial
    = (r, initial).
Proof.
  destruct (dry_run_changes_nothing (H := sample.platform) initial
              (Some [("listen", "yes"); ("port", "6363")])
              (mkContext true 7%nat) eq_refl)
    as (r & Hp & _).
  by exists r.
Defined.

End TcpFactory_config.

(** ** The face table *)

Module FaceTable_facts.
Import FaceTable.

Local Open Scope Z_scope.

#[local] Arguments add : simpl never.
#[local] Arguments remove : simpl never.

Lemma filter_next_hops face (hops : list (FacePtr * N)) h :
  h ∈ filter (λ h, h.1 ≠ face) hops → h.1 ≠ face.
Proof. intros Hin. by apply list_elem_of_filter in Hin as [? _]. Qed.

Lemma removeNextHopFromAllEntries_purges face forwarder_fib e h :
  e ∈ removeNextHopFromAllEntries face forwarder_fib → h ∈ nextHops e →
  h.1 ≠ face.
Proof.
  unfold removeNextHopFromAllEntries. rewrite list_elem_of_fmap.
  intros (e0 & -> & _) Hh. simpl in Hh. by eapply filter_next_hops.
Qed.

Lemma StronglySorted_lt_NoDup (l : list Z) : StronglySorted Z.lt l → NoDup l.
Proof.
  induction 1 as [|x l Hs IH Hall]; constructor; [|done].
  intros Hin. rewrite list.Forall_forall in Hall. specialize (Hall x Hin). lia.
Qed.

Lemma adds_app ops1 ops2 : adds (ops1 ++ ops2) = (adds ops1 + adds ops2)%nat.
Proof.
  induction ops1 as [|[face|face] ops1 IH]; simpl; [done|by rewrite IH|done].
Qed.

Lemma adds_replicate n face : adds (replicate n (Add face)) = n.
Proof. induction n as [|n IH]; simpl; [done|by rewrite IH]. Qed.

Section table.
Variable INVALID_FACEID : FaceId.
Variables FaceId_min FaceId_max : FaceId.

Abbreviation increment := (increment FaceId_min FaceId_max).
Abbreviation add := (add FaceId_min FaceId_max).
Abbreviation run := (run INVALID_FACEID FaceId_min FaceId_max).
Abbreviation assigned := (assigned INVALID_FACEID FaceId_min FaceId_max).

Lemma increment_below x : x < FaceId_max → increment x = x + 1.
Proof. intros Hx. unfold FaceTable.increment. rewrite decide_False; [done|lia]. Qed.

Lemma increment_greatest : increment FaceId_max = FaceId_min.
Proof. unfold FaceTable.increment. by rewrite decide_True. Qed.

Lemma add_lastFaceId face s :
  m_lastFaceId (add face s) = increment (m_lastFaceId s).
Proof. reflexivity. Qed.

Lemma add_getId face s :
  getId (faces (add face s) face) = increment (m_lastFaceId s).
Proof. unfold FaceTable.add, update_face; simpl. by rewrite !fn_lookup_insert. Qed.

Lemma add_m_faces face s :
  m_faces (add face s) = <[increment (m_lastFaceId s) := face]> (m_faces s).
Proof. reflexivity. Qed.

Lemma add_other_face face s face' :
  face' ≠ face → faces (add face s) face' = faces s face'.
Proof.
  intros Hne. unfold FaceTable.add, update_face; simpl.
  by rewrite !fn_lookup_insert_ne.
Qed.

(** After [add] the face has its two new subscribers, behind those it
    had. *)
Lemma add_subscribes face s :
  onReceiveInterest (faces (add face s) face)
  = onReceiveInterest (faces s face) ++ [Forwarder_onInterest face]
  ∧ onReceiveData (faces (add face s) face)
    = onReceiveData (faces s face) ++ [Forwarder_onData face].
Proof. unfold FaceTable.add, update_face; simpl. by rewrite !fn_lookup_insert. Qed.

Lemma remove_lastFaceId face s :
  m_lastFaceId (remove INVALID_FACEID face s) = m_lastFaceId s.
Proof. reflexivity. Qed.

Lemma remove_face face s :
  faces (remove INVALID_FACEID face s) face = mkFace INVALID_FACEID [] [].
Proof. unfold remove, update_face; simpl. by rewrite !fn_lookup_insert. Qed.

Lemma remove_other_face face s face' :
  face' ≠ face → faces (remove INVALID_FACEID face s) face' = faces s face'.
Proof.
  intros Hne. unfold remove, update_face; simpl.
  by rewrite !fn_lookup_insert_ne.
Qed.

Lemma remove_m_faces face s :
  m_faces (remove INVALID_FACEID face s)
  = delete (getId (faces s face)) (m_faces s).
Proof. reflexivity. Qed.

Lemma assigned_app ops1 ops2 s :
  assigned (ops1 ++ ops2) s = assigned ops1 s ++ assigned ops2 (run ops1 s).
Proof.
  revert s. induction ops1 as [|[face|face] ops1 IH]; intros s;
    cbn [app FaceTable.assigned FaceTable.run step]; [done| |apply IH].
  by rewrite IH.
Qed.

(** While the counter has room for the [add] calls of a sequence, the
    ids that the sequence assigns are those that follow the counter,
    one by one, and the counter ends that far on. *)
Lemma assigned_consecutive ops s :
  m_lastFaceId s + Z.of_nat (adds ops) ≤ FaceId_max →
  assigned ops s = seqZ (m_lastFaceId s + 1) (Z.of_nat (adds ops))
  ∧ m_lastFaceId (run ops s) = m_lastFaceId s + Z.of_nat (adds ops).
Proof.
  revert s. induction ops as [|[face|face] ops IH]; intros s Hroom;
    cbn [FaceTable.assigned FaceTable.run step adds] in *.
  - split; [done|lia].
  - assert (increment (m_lastFaceId s) = m_lastFaceId s + 1) as Hinc
      by (apply increment_below; lia).
    destruct (IH (add face s)) as [Ha Hl];
      [rewrite add_lastFaceId, Hinc; lia|].
    rewrite add_lastFaceId, Hinc in Ha, Hl.
    rewrite add_getId, Hinc, Ha, Hl. split; [|lia].
    rewrite (seqZ_cons _ (Z.of_nat (S (adds ops)))) by lia.
    do 2 f_equal; lia.
  - destruct (IH (remove INVALID_FACEID face s)) as [Ha Hl];
      [by rewrite remove_lastFaceId|].
    by rewrite remove_lastFaceId in Ha, Hl.
Qed.

Lemma seqZ_sorted m n : StronglySorted Z.lt (seqZ m n).
Proof.
  destruct (decide (0 ≤ n)) as [Hn|Hn]; [|rewrite seqZ_nil by lia; constructor].
  revert m. pattern n. apply natlike_ind; [| |done].
  - intros m. rewrite seqZ_nil by lia. constructor.
  - intros k Hk IH m. rewrite seqZ_cons by lia.
    replace (Z.pred (Z.succ k)) with k by lia. constructor; [apply IH|].
    apply list.Forall_forall. intros x Hx. apply elem_of_seqZ in Hx. lia.
Qed.

Lemma length_assigned ops s : length (assigned ops s) = adds ops.
Proof.
  revert s. induction ops as [|[face|face] ops IH]; intros s;
    cbn [FaceTable.assigned adds length]; [done|f_equal|]; apply IH.
Qed.

(** What the table consistency needs of [add]: the face is not in the
    table yet. *)
Lemma add_table_ok face s :
  table_ok s → (∀ faceId, m_faces s !! faceId ≠ Some face) →
  table_ok (add face s).
Proof.
  intros Hok Hnew faceId face'. rewrite add_m_faces.
  destruct (decide (faceId = increment (m_lastFaceId s))) as [->|Hne].
  - rewrite lookup_insert_eq. intros [= <-]. apply add_getId.
  - rewrite lookup_insert_ne by done. intros Hl.
    rewrite add_other_face; [by apply Hok|]. intros ->. by apply Hnew in Hl.
Qed.

Lemma remove_table_ok face s :
  table_ok s → table_ok (remove INVALID_FACEID face s).
Proof.
  intros Hok faceId face'. rewrite remove_m_faces.
  destruct (decide (faceId = getId (faces s face))) as [->|Hne].
  - by rewrite lookup_delete_eq.
  - rewrite lookup_delete_ne by done. intros Hl.
    destruct (decide (face' = face)) as [->|Hne'].
    + apply Hok in Hl. congruence.
    + rewrite remove_other_face by done. by apply Hok.
Qed.

(** What the ids are when the counter is taken past the greatest
    id: those up to the greatest, the least, and those from the least
    up to 1. *)
Lemma assigned_wrapping objects forwarder_fib face :
  1 ≤ FaceId_max → FaceId_min ≤ 0 →
  assigned (wrapping_sequence FaceId_min FaceId_max face)
           (new objects forwarder_fib)
  = seqZ 1 FaceId_max ++ FaceId_min :: seqZ (FaceId_min + 1) (1 - FaceId_min).
Proof.
  intros Hmax Hmin. unfold wrapping_sequence. rewrite assigned_app.
  destruct (assigned_consecutive (replicate (Z.to_nat FaceId_max) (Add face))
              (new objects forwarder_fib)) as [Ha Hl].
  { rewrite adds_replicate. cbn [m_lastFaceId new]. lia. }
  rewrite adds_replicate in Ha, Hl. cbn [m_lastFaceId new] in Ha, Hl.
  rewrite Z2Nat.id in Ha, Hl by lia. rewrite Ha. f_equal.
  set (s1 := run (replicate (Z.to_nat FaceId_max) (Add face))
                 (new objects forwarder_fib)) in *.
  cbn [FaceTable.assigned]. rewrite add_getId.
  replace (m_lastFaceId s1) with FaceId_max by lia.
  rewrite increment_greatest. f_equal.
  destruct (assigned_consecutive (replicate (Z.to_nat (1 - FaceId_min)) (Add face))
              (add face s1)) as [Hb _].
  { rewrite adds_replicate, add_lastFaceId.
    replace (m_lastFaceId s1) with FaceId_max by lia.
    rewrite increment_greatest. lia. }
  rewrite adds_replicate, add_lastFaceId in Hb.
  replace (m_lastFaceId s1) with FaceId_max in Hb by lia.
  rewrite increment_greatest in Hb. rewrite Z2Nat.id in Hb by lia. exact Hb.
Qed.

(** Past the greatest id the ids are not increasing, go down to the
    least value of the type, and come again. *)
Lemma wrapping_breaks_ids objects forwarder_fib face :
  1 ≤ FaceId_max → FaceId_min ≤ 0 → FaceId_min ≤ INVALID_FACEID →
  let ids := assigned (wrapping_sequence FaceId_min FaceId_max face)
                      (new objects forwarder_fib) in
  ¬ StronglySorted Z.lt ids
  ∧ ¬ Forall (λ i, INVALID_FACEID < i) ids
  ∧ ¬ NoDup ids.
Proof.
  intros Hmax Hmin Hinv ids. subst ids.
  rewrite assigned_wrapping by lia.
  assert (FaceId_max ∈ seqZ 1 FaceId_max) as Hlast
    by (apply elem_of_seqZ; lia).
  assert (1 ∈ seqZ 1 FaceId_max) as Hone by (apply elem_of_seqZ; lia).
  split; [|split].
  - intros Hs.
    pose proof (StronglySorted_app_1_elem_of _ _ _ FaceId_max FaceId_min Hs
                  Hlast ltac:(left)). lia.
  - intros Hall. rewrite list.Forall_forall in Hall.
    specialize (Hall FaceId_min).
    assert (INVALID_FACEID < FaceId_min); [|lia].
    apply Hall, elem_of_app. right. left.
  - intros Hnd. apply list.NoDup_app in Hnd as (_ & Hdisj & _).
    apply (Hdisj 1 Hone). right. apply elem_of_seqZ. lia.
Qed.

(** C2, as amended.  On a table as constructed, for a sequence of
    [add] and [remove] calls whose [add] calls are no more than the
    greatest id (the counter does not go past the end of its integer
    type), the ids that the [add] calls assign are strictly
    increasing in call order, each is above the sentinel (which is
    declared below the first id), and none is assigned twice. *)
Theorem assigned_ids_increasing (objects : FacePtr → Face) (forwarder_fib : Fib)
    (ops : list Op) :
  INVALID_FACEID < 1 →
  Z.of_nat (adds ops) ≤ FaceId_max →
  let ids := assigned ops (new objects forwarder_fib) in
  StronglySorted Z.lt ids
  ∧ Forall (λ i, INVALID_FACEID < i) ids
  ∧ NoDup ids
  ∧ length ids = adds ops.
Proof.
  intros Hinv Hroom ids.
  destruct (assigned_consecutive ops (new objects forwarder_fib)) as [Ha _];
    [cbn [m_lastFaceId new]; lia|].
  cbn [m_lastFaceId new] in Ha. subst ids. split; [|split; [|split]].
  - rewrite Ha. apply seqZ_sorted.
  - rewrite Ha. apply list.Forall_forall. intros x Hx.
    apply elem_of_seqZ in Hx. lia.
  - rewrite Ha. apply NoDup_seqZ.
  - apply length_assigned.
Qed.

(** C6.  After [remove(face)] on a registered face: its id is the
    sentinel; the table has nothing at the id it had (and, the table
    being consistent, maps no id to the face); both of its
    subscription lists are empty; and the FIB is the one that the
    next-hop removal gives for this face, in which no entry has the
    face as a next hop. *)
Theorem remove_unregisters (face : FacePtr) (s : State) :
  table_ok s →
  registered face s →
  let s' := remove INVALID_FACEID face s in
  getId (faces s' face) = INVALID_FACEID
  ∧ m_faces s' !! getId (faces s face) = None
  ∧ (∀ faceId, m_faces s' !! faceId ≠ Some face)
  ∧ onReceiveInterest (faces s' face) = []
  ∧ onReceiveData (faces s' face) = []
  ∧ fib s' = removeNextHopFromAllEntries face (fib s)
  ∧ (∀ e h, e ∈ fib s' → h ∈ nextHops e → h.1 ≠ face).
Proof.
  intros Hok Hreg s'. subst s'. rewrite remove_face, remove_m_faces. simpl.
  split; [done|]. split; [apply lookup_delete_eq|].
  split; [|split; [done|split; [done|split; [done|]]]].
  - intros faceId Hl.
    destruct (decide (faceId = getId (faces s face))) as [->|Hne].
    + by rewrite lookup_delete_eq in Hl.
    + rewrite lookup_delete_ne in Hl by done. apply Hok in Hl. congruence.
  - intros e h. apply removeNextHopFromAllEntries_purges.
Qed.

End table.

Lemma assigned_ids_increasing_witness :
  let ids := assigned (-1) sample.int_min sample.int_max
                      [Add 0%nat; Add 1%nat; Remove 0%nat; Add 2%nat]
                      (new (λ _, sample.created) sample.fib0) in
  StronglySorted Z.lt ids
  ∧ Forall (λ i, -1 < i) ids
  ∧ NoDup ids
  ∧ length ids = 3%nat.
Proof.
  apply (assigned_ids_increasing (-1) sample.int_min sample.int_max
           (λ _, sample.created) sample.fib0
           [Add 0%nat; Add 1%nat; Remove 0%nat; Add 2%nat]).
  - reflexivity.
  - discriminate.
Defined.

(** C2, counterexample.  With [FaceId] a 32-bit [int] and the
    sentinel -1: a sequence of [add] calls that takes the counter
    past 2147483647 gets ids that are not increasing (-2147483648
    follows 2147483647), that are not all above the sentinel, and
    among which 1 comes twice. *)
Lemma ids_wrap_past_the_greatest_int :
  let ids := assigned (-1) sample.int_min sample.int_max
               (wrapping_sequence sample.int_min sample.int_max 0%nat)
               (new (λ _, sample.created) sample.fib0) in
  ¬ StronglySorted Z.lt ids
  ∧ ¬ Forall (λ i, -1 < i) ids
  ∧ ¬ NoDup ids.
Proof.
  apply (wrapping_breaks_ids (-1) sample.int_min sample.int_max
           (λ _, sample.created) sample.fib0 0%nat);
    unfold sample.int_min, sample.int_max; lia.
Qed.

Lemma one_face_ok : table_ok sample.one_face.
Proof.
  intros faceId face. unfold sample.one_face. rewrite add_m_faces.
  rewrite increment_below by (cbn [m_lastFaceId new]; unfold sample.int_max; lia).
  cbn [m_lastFaceId m_faces new].
  destruct (decide (faceId = 0 + 1)) as [->|Hne].
  - rewrite lookup_insert_eq. by intros [= <-].
  - rewrite lookup_insert_ne by done. by rewrite lookup_empty.
Qed.

Lemma remove_unregisters_witness :
  getId (faces (remove (-1) 0%nat sample.one_face) 0%nat) = -1
  ∧ fib (remove (-1) 0%nat sample.one_face)
    = [mkFibEntry "/a" [(1%nat, 20%N)]; mkFibEntry "/b" []].
Proof.
  destruct (remove_unregisters (-1) 0%nat sample.one_face one_face_ok
              ltac:(reflexivity))
    as (Hid & _ & _ & _ & _ & Hfib & _).
  split; [exact Hid|]. rewrite Hfib. reflexivity.
Defined.

End FaceTable_facts.

(** ** The end-to-end scenarios of the design, run on the model *)

Module scenarios.
Import TcpFactory.

Definition section_A : ConfigSection :=
  [("listen", "yes"); ("port", "6363"); ("enable_v4", "yes"); ("enable_v6", "yes")].

Definition configured : State :=
  (processConfig (H := sample.platform) (Some section_A)
                 (mkContext false 7%nat) initial).2.

(** Scenario A: two channels, at the two wildcard endpoints of port
    6363, both listening with the context's sink, and the three
    schemes. *)
Example scenario_A :
  m_channels configured = [(Endpoint_v4 6363, 0%nat); (Endpoint_v6 6363, 1%nat)]
  ∧ channels configured 0%nat = mkChannel (Endpoint_v4 6363) true (Some 7%nat)
  ∧ channels configured 1%nat = mkChannel (Endpoint_v6 6363) true (Some 7%nat)
  ∧ providedSchemes configured = {["tcp"; "tcp4"; "tcp6"]}
  ∧ m_prohibitedEndpoints configured
    = {[ Endpoint_v4 6363; mkEndpoint (ip.V4 0x7F000001) 6363;
         mkEndpoint (ip.V4 0xC0000207) 6363;
         Endpoint_v6 6363; mkEndpoint (ip.V6 (ip.mk_v6 1 0)) 6363;
         mkEndpoint (ip.V6 (ip.mk_v6 0x20010db8000000000000000000000007 0)) 6363 ]}.
Proof. repeat split; vm_compute; reflexivity. Qed.

(** The same section under dry-run: validated, nothing done. *)
Example scenario_A_dry_run :
  processConfig (H := sample.platform) (Some section_A)
                (mkContext true 7%nat) initial
  = (Ret (), initial).
Proof. reflexivity. Qed.

Definition request (host : string) (wantLocalFieldsEnabled : bool) : Request :=
  mkRequest (sample.uri host "6363") None FACE_PERSISTENCY_PERSISTENT
            wantLocalFieldsEnabled 1%nat 2%nat.

(** Scenario B: a multicast remote is not acceptable. *)
Example scenario_B :
  call (H := sample.platform) configured (request "224.0.0.1" false)
  = OnFailure 2%nat 406 "Cannot create multicast TCP faces".
Proof. vm_compute. reflexivity. Qed.

(** Scenario C: local fields on a loopback remote go to the channel of
    its family; on another remote they are not acceptable. *)
Example scenario_C_loopback :
  call (H := sample.platform) sample.two_channels (request "127.0.0.1" true)
  = ChannelConnect 0%nat (mkEndpoint (ip.V4 0x7F000001) 6363)
      FACE_PERSISTENCY_PERSISTENT true 1%nat 2%nat.
Proof. vm_compute. reflexivity. Qed.

Example scenario_C_remote :
  call (H := sample.platform) sample.two_channels (request "192.0.2.1" true)
  = OnFailure 2%nat 406
      "Local fields can only be enabled on faces with local scope".
Proof. vm_compute. reflexivity. Qed.

(** The daemon does not dial its own listening addresses. *)
Example own_address_prohibited :
  call (H := sample.platform) configured (request "192.0.2.7" false)
  = OnFailure 2%nat 406 "Requested endpoint is prohibited".
Proof. vm_compute. reflexivity. Qed.

(** No channel of the family: 504. *)
Example no_channel_of_family :
  call (H := sample.platform) initial (request "192.0.2.1" false)
  = OnFailure 2%nat 504 "No channels available to connect".
Proof. vm_compute. reflexivity. Qed.

End scenarios.

(** ** Outbound faces: what a call can and cannot do *)

Module TcpFactory_outbound.
Import TcpFactory TcpFactory_createFace std_map_facts.

Section outbound.
Context `{Platform}.

Lemma select_channel_Some m endpoint channel :
  select_channel m endpoint = Some channel →
  ∃ before k after,
    m = before ++ (k, channel) :: after
    ∧ same_family (address k) (address endpoint) = true
    ∧ ∀ e, e ∈ before → same_family (address e.1) (address endpoint) = false.
Proof.
  induction m as [|[k c] m IH]; simpl; [done|].
  fold (same_family (address k) (address endpoint)).
  destruct (same_family (address k) (address endpoint)) eqn:Hk.
  - intros [= ->]. exists [], k, m. repeat split; [done|].
    intros e He. by apply elem_of_nil in He.
  - intros Hs. destruct (IH Hs) as (before & k' & after & -> & Hk' & Hb).
    exists ((k, c) :: before), k', after. repeat split; [done|].
    intros e He. apply elem_of_cons in He as [->|He]; auto.
Qed.

(** What a call went through when it is not rejected at a gate. *)
Lemma call_passed s r :
  isCanonical (remoteUri r) = true →
  (∀ g, violates s r g = false) →
  localUri r = None ∧ persistency r ≠ FACE_PERSISTENCY_ON_DEMAND.
Proof.
  intros _ Hpass. split.
  - pose proof (Hpass LocalUriPresent) as H1. simpl in H1.
    apply bool_decide_eq_false in H1. destruct (localUri r); [|done].
    exfalso. apply H1. eauto.
  - pose proof (Hpass OnDemandPersistency) as H2. simpl in H2.
    by apply bool_decide_eq_false in H2.
Qed.

(** The outcomes of a call, by cases on the gates. *)
Lemma call_cases s r :
  isCanonical (remoteUri r) = true →
  (∃ g, violates s r g = true ∧ rejected_by s r g)
  ∨ ((∀ g, violates s r g = false) ∧ resolve (remoteUri r) = None
     ∧ call s r = Thrown)
  ∨ (∃ endpoint,
       (∀ g, violates s r g = false) ∧ resolve (remoteUri r) = Some endpoint
       ∧ call s r =
         match select_channel (m_channels s) endpoint with
         | Some channel =>
             ChannelConnect channel endpoint (persistency r)
               (wantLocalFieldsEnabled r) (onCreated r) (onFailure r)
         | None =>
             OnFailure (onFailure r) 504 "No channels available to connect"
         end).
Proof.
  intros Hc.
  destruct (violates s r LocalUriPresent) eqn:E1.
  { left. destruct (earliest_exists s r _ E1) as (g & Hg & Hmin).
    exists g. split; [done|]. by apply call_earliest. }
  destruct (violates s r OnDemandPersistency) eqn:E2.
  { left. destruct (earliest_exists s r _ E2) as (g & Hg & Hmin).
    exists g. split; [done|]. by apply call_earliest. }
  destruct (violates s r MulticastAddress) eqn:E4.
  { left. destruct (earliest_exists s r _ E4) as (g & Hg & Hmin).
    exists g. split; [done|]. by apply call_earliest. }
  destruct (violates s r ProhibitedEndpoint) eqn:E5.
  { left. destruct (earliest_exists s r _ E5) as (g & Hg & Hmin).
    exists g. split; [done|]. by apply call_earliest. }
  destruct (violates s r LocalFieldsNotLoopback) eqn:E6.
  { left. destruct (earliest_exists s r _ E6) as (g & Hg & Hmin).
    exists g. split; [done|]. by apply call_earliest. }
  assert (∀ g, violates s r g = false) as Hpass by (by intros []).
  right. destruct (resolve (remoteUri r)) as [endpoint|] eqn:Hres.
  - right. exists endpoint. split; [done|]. split; [done|].
    by apply call_selects.
  - left. split; [done|]. split; [done|].
    destruct (call_passed s r Hc Hpass) as [Hl Hp].
    unfold call, createFace. rewrite Hc, Hl, Hres. simpl.
    by rewrite bool_decide_eq_false_2.
Qed.

(** X1.  A connect is only ever handed to a channel for a request
    that passes every gate: no local URI, persistency other than
    on-demand, a remote that resolves, is not multicast, is not
    prohibited, and is loopback if local fields are wanted; the
    channel is one of the registry, under a key of the remote's
    family, and it gets the resolved endpoint and the caller's
    persistency, flag and callbacks unchanged. *)
Theorem connect_only_after_all_gates (s : State) (r : Request)
    (channel : ChannelPtr) (remote : Endpoint) (p : FacePersistency)
    (w : bool) (c f : Callback) :
  isCanonical (remoteUri r) = true →
  call s r = ChannelConnect channel remote p w c f →
  localUri r = None
  ∧ persistency r ≠ FACE_PERSISTENCY_ON_DEMAND
  ∧ resolve (remoteUri r) = Some remote
  ∧ ip.is_multicast (address remote) = false
  ∧ (remote ∉ m_prohibitedEndpoints s)
  ∧ (w = true → ip.is_loopback (address remote) = true)
  ∧ p = persistency r ∧ w = wantLocalFieldsEnabled r
  ∧ c = onCreated r ∧ f = onFailure r
  ∧ channel ∈ getChannels s
  ∧ ∃ k, (k, channel) ∈ m_channels s
         ∧ same_family (address k) (address remote) = true.
Proof.
  intros Hc Hcall.
  destruct (call_cases s r Hc) as [(g & _ & Hrej)|[(_ & _ & Hthrown)|Hsel]].
  { unfold rejected_by in Hrej. congruence. }
  { congruence. }
  destruct Hsel as (endpoint & Hpass & Hres & Hsel).
  rewrite Hsel in Hcall.
  destruct (select_channel (m_channels s) endpoint) as [ch|] eqn:Hs; [|done].
  injection Hcall as -> -> <- <- <- <-.
  destruct (call_passed s r Hc Hpass) as [Hl Hp].
  pose proof (Hpass MulticastAddress) as H4.
  pose proof (Hpass ProhibitedEndpoint) as H5.
  pose proof (Hpass LocalFieldsNotLoopback) as H6.
  simpl in H4, H5, H6. rewrite Hres in H4, H5, H6.
  apply select_channel_Some in Hs as (before & k & after & Hm & Hk & _).
  assert ((k, channel) ∈ m_channels s) as Hin.
  { rewrite Hm. apply elem_of_app. right. left. }
  repeat split; try done.
  - by apply bool_decide_eq_false in H5.
  - intros Hw. rewrite Hw in H6. simpl in H6. by apply negb_false_iff in H6.
  - unfold getChannels. apply list_elem_of_fmap. by exists (k, channel).
  - by exists k.
Qed.

(** X2.  Every call of the failure callback is accounted for: it is
    the caller's callback, and either the code is 406 with the reason
    of a gate that the request violates, or the code is 504, the
    request violates no gate, its remote resolves, and the registry
    has no channel of the remote's family. *)
Theorem failure_is_accounted_for (s : State) (r : Request)
    (cb : Callback) (code : N) (reason : string) :
  isCanonical (remoteUri r) = true →
  call s r = OnFailure cb code reason →
  cb = onFailure r
  ∧ ((code = 406 ∧ ∃ g, violates s r g = true ∧ reason = (rejection g).2)
     ∨ (code = 504
        ∧ reason = "No channels available to connect"
        ∧ (∀ g, violates s r g = false)
        ∧ ∃ endpoint,
            resolve (remoteUri r) = Some endpoint
            ∧ ∀ e, e ∈ m_channels s →
                   same_family (address e.1) (address endpoint) = false)).
Proof.
  intros Hc Hcall.
  destruct (call_cases s r Hc) as [(g & Hg & Hrej)|[(_ & _ & Hthrown)|Hsel]].
  - unfold rejected_by in Hrej. rewrite Hrej in Hcall.
    injection Hcall as <- <- <-. split; [done|]. left. split.
    + by destruct g.
    + by exists g.
  - congruence.
  - destruct Hsel as (endpoint & Hpass & Hres & Hsel). rewrite Hsel in Hcall.
    destruct (select_channel (m_channels s) endpoint) as [ch|] eqn:Hs; [done|].
    injection Hcall as <- <- <-. split; [done|]. right.
    repeat split; try done. exists endpoint. split; [done|].
    by apply select_channel_None.
Qed.

(** X3.  In a registry in order, the channel that a connect goes to
    is the one with the least endpoint among the channels of the
    remote's family. *)
Theorem connect_goes_to_least_endpoint (s : State) (r : Request)
    (channel : ChannelPtr) (remote : Endpoint) (p : FacePersistency)
    (w : bool) (c f : Callback) :
  std_map.ordered (m_channels s) →
  isCanonical (remoteUri r) = true →
  call s r = ChannelConnect channel remote p w c f →
  ∃ k, findChannel k s = Some channel
       ∧ same_family (address k) (address remote) = true
       ∧ ∀ k' channel',
           (k', channel') ∈ m_channels s →
           same_family (address k') (address remote) = true →
           k' = k ∨ Endpoint_lt k k'.
Proof.
  intros Hord Hc Hcall.
  destruct (call_cases s r Hc) as [(g & _ & Hrej)|[(_ & _ & Hthrown)|Hsel]].
  { unfold rejected_by in Hrej. congruence. }
  { congruence. }
  destruct Hsel as (endpoint & Hpass & Hres & Hsel). rewrite Hsel in Hcall.
  destruct (select_channel (m_channels s) endpoint) as [ch|] eqn:Hs; [|done].
  injection Hcall as -> -> _ _ _ _.
  apply select_channel_Some in Hs as (before & k & after & Hm & Hk & Hbefore).
  exists k. split; [|split; [done|]].
  - apply elem_find; [done|]. rewrite Hm. apply elem_of_app. right. left.
  - intros k' channel' Hin Hk'. rewrite Hm in Hin.
    apply elem_of_app in Hin as [Hin|Hin].
    { specialize (Hbefore _ Hin). simpl in Hbefore. congruence. }
    apply elem_of_cons in Hin as [[= -> ->]|Hin]; [by left|]. right.
    unfold std_map.ordered, std_map.keys in Hord. rewrite Hm in Hord.
    rewrite fmap_app, fmap_cons in Hord.
    apply StronglySorted_app_1_r, StronglySorted_cons in Hord as [Hall _].
    rewrite list.Forall_forall in Hall. apply Hall.
    apply list_elem_of_fmap. by exists (k', channel').
Qed.

End outbound.

Lemma connect_only_after_all_gates_witness :
  resolve (H := sample.platform) (sample.uri "127.0.0.1" "6363")
  = Some (mkEndpoint (ip.V4 0x7F000001) 6363)
  ∧ 0%nat ∈ getChannels sample.two_channels.
Proof.
  destruct (connect_only_after_all_gates (H := sample.platform)
              sample.two_channels
              (mkRequest (sample.uri "127.0.0.1" "6363") None
                 FACE_PERSISTENCY_PERSISTENT true 1%nat 2%nat)
              0%nat (mkEndpoint (ip.V4 0x7F000001) 6363)
              FACE_PERSISTENCY_PERSISTENT true 1%nat 2%nat
              eq_refl eq_refl)
    as (_ & _ & Hres & _ & _ & _ & _ & _ & _ & _ & Hin & _).
  by split.
Defined.

Lemma failure_is_accounted_for_witness :
  ∃ g, violates (H := sample.platform) sample.two_channels
         (mkRequest (sample.uri "224.0.0.1" "6363") None
            FACE_PERSISTENCY_PERSISTENT false 1%nat 2%nat) g = true
       ∧ "Cannot create multicast TCP faces" = (rejection g).2.
Proof.
  destruct (failure_is_accounted_for (H := sample.platform)
              sample.two_channels
              (mkRequest (sample.uri "224.0.0.1" "6363") None
                 FACE_PERSISTENCY_PERSISTENT false 1%nat 2%nat)
              2%nat 406 "Cannot create multicast TCP faces"
              eq_refl eq_refl)
    as [_ [[_ Hg]|[Hcode _]]]; [exact Hg|discriminate Hcode].
Defined.

Lemma two_channels_ordered : std_map.ordered (m_channels sample.two_channels).
Proof.
  unfold std_map.ordered; simpl. repeat constructor.
Qed.

Lemma connect_goes_to_least_endpoint_witness :
  ∃ k, findChannel k sample.two_channels = Some 1%nat
       ∧ same_family (address k) (ip.V6 (ip.mk_v6 1 0)) = true.
Proof.
  destruct (connect_goes_to_least_endpoint (H := sample.platform)
              sample.two_channels
              (mkRequest (sample.uri "::1" "6363") None
                 FACE_PERSISTENCY_PERSISTENT true 1%nat 2%nat)
              1%nat (mkEndpoint (ip.V6 (ip.mk_v6 1 0)) 6363)
              FACE_PERSISTENCY_PERSISTENT true 1%nat 2%nat
              two_channels_ordered eq_refl eq_refl)
    as (k & Hf & Hk & _).
  exists k. by split.
Defined.

End TcpFactory_outbound.

(** ** Endpoint prohibition: how calls compose *)

Module TcpFactory_prohibit_more.
Import TcpFactory TcpFactory_prohibit.

Section prohibit.
Context `{Platform}.

Lemma expansion_concrete e : ¬ wildcard e → expansion e = [].
Proof.
  intros Hw. unfold expansion.
  rewrite (bool_decide_eq_false_2 (address e = ip.V4 ip.v4_any))
    by (intros He; apply Hw; by left).
  rewrite (bool_decide_eq_false_2 (address e = ip.V6 ip.v6_any))
    by (intros He; apply Hw; by right).
  by rewrite !andb_false_r.
Qed.

(** What a wildcard expands to: endpoints at its port, of its
    family, at an interface address that is not the wildcard. *)
Lemma elem_expansion e e' :
  e' ∈ expansion e →
  wildcard e ∧ ¬ wildcard e' ∧ port e' = port e
  ∧ same_family (address e') (address e) = true
  ∧ ∃ nic, nic ∈ listNetworkInterfaces
           ∧ match address e' with
             | ip.V4 a => a ∈ ipv4Addresses nic
             | ip.V6 a => a ∈ ipv6Addresses nic
             end.
Proof.
  unfold expansion.
  destruct (ip.is_v4 (address e) && bool_decide (address e = ip.V4 ip.v4_any))
    eqn:E4.
  - apply andb_true_iff in E4 as [_ E4]. apply bool_decide_eq_true in E4.
    intros Hin. apply elem_nics_v4_targets in Hin as (nic & a & Hn & Ha & Hne & ->).
    split; [by left|]. split; [intros [[=]|[=]]; done|]. split; [done|].
    split; [by rewrite E4|]. by exists nic.
  - destruct (ip.is_v6 (address e) && bool_decide (address e = ip.V6 ip.v6_any))
      eqn:E6.
    + apply andb_true_iff in E6 as [_ E6]. apply bool_decide_eq_true in E6.
      intros Hin.
      apply elem_nics_v6_targets in Hin as (nic & a & Hn & Ha & Hne & ->).
      split; [by right|]. split; [intros [[=]|[=]]; done|]. split; [done|].
      split; [by rewrite E6|]. by exists nic.
    + intros Hin. by apply elem_of_nil in Hin.
Qed.

(** X6.  A call prohibits nothing foreign: an endpoint that it adds
    is at the port and of the family of its argument, and is the
    argument itself or, when the argument is a wildcard, a
    non-wildcard address of an interface.  For an argument that is no
    wildcard the set grows by that endpoint alone. *)
Theorem prohibitEndpoint_adds_nothing_foreign (endpoint : Endpoint) (s : State) :
  let s1 := (prohibitEndpoint endpoint s).2 in
  (∀ e, e ∈ m_prohibitedEndpoints s1 →
        e ∈ m_prohibitedEndpoints s
        ∨ (port e = port endpoint
           ∧ same_family (address e) (address endpoint) = true
           ∧ (e = endpoint
              ∨ (wildcard endpoint ∧ ¬ wildcard e
                 ∧ ∃ nic, nic ∈ listNetworkInterfaces
                          ∧ match address e with
                            | ip.V4 a => a ∈ ipv4Addresses nic
                            | ip.V6 a => a ∈ ipv6Addresses nic
                            end))))
  ∧ (¬ wildcard endpoint →
     m_prohibitedEndpoints s1 = {[endpoint]} ∪ m_prohibitedEndpoints s).
Proof.
  rewrite prohibitEndpoint_run. simpl. split.
  - intros e. rewrite !elem_of_union, elem_of_singleton, elem_of_list_to_set.
    intros [->|[He|He]]; [|right|by left].
    + right. split; [done|]. split; [|by left].
      unfold same_family. by destruct (address endpoint).
    + destruct (elem_expansion _ _ He) as (Hw & Hnw & Hp & Hf & Hnic).
      split; [done|]. split; [done|]. right. by split.
  - intros Hw. rewrite expansion_concrete by done. set_solver.
Qed.

End prohibit.

Section two_calls.
(** The platform as the first of two calls finds it, and as the
    second does. *)
Variables P Q : Platform.

Lemma expansion_nothing_new e :
  nothing_new Q P →
  ∀ e', e' ∈ expansion (H := Q) e → e' ∈ expansion (H := P) e.
Proof.
  intros [H4 H6] e'. unfold expansion.
  destruct (ip.is_v4 (address e) && bool_decide (address e = ip.V4 ip.v4_any)).
  - rewrite !elem_nics_v4_targets. intros (nic & a & Hn & Ha & Hne & ->).
    assert (a ∈ reported_v4 P) as Ha'.
    { apply H4. unfold reported_v4. apply list_elem_of_bind. by exists nic. }
    unfold reported_v4 in Ha'. apply list_elem_of_bind in Ha' as (nic' & ? & ?).
    by exists nic', a.
  - destruct (ip.is_v6 (address e) && bool_decide (address e = ip.V6 ip.v6_any));
      [|done].
    rewrite !elem_nics_v6_targets. intros (nic & a & Hn & Ha & Hne & ->).
    assert (a ∈ reported_v6 P) as Ha'.
    { apply H6. unfold reported_v6. apply list_elem_of_bind. by exists nic. }
    unfold reported_v6 in Ha'. apply list_elem_of_bind in Ha' as (nic' & ? & ?).
    by exists nic', a.
Qed.

Lemma expansion_guarded e :
  (wildcard e → nothing_new Q P) →
  ∀ e', e' ∈ expansion (H := Q) e → e' ∈ expansion (H := P) e.
Proof.
  intros Hnew e' He'. destruct (elem_expansion _ _ He') as [Hw _].
  by apply expansion_nothing_new; [apply Hnew|].
Qed.

(** X4.  Prohibiting an endpoint a second time changes nothing,
    provided that, for a wildcard, the interfaces as the second call
    enumerates them have no address that they had not at the first
    call.  A call keeps every prohibition there was, leaves the
    endpoint in the set, and touches nothing else of the factory. *)
Theorem prohibitEndpoint_idempotent (endpoint : Endpoint) (s : State) :
  (wildcard endpoint → nothing_new Q P) →
  ∃ s1, prohibitEndpoint (H := P) endpoint s = (Ret (), s1)
        ∧ prohibitEndpoint (H := Q) endpoint s1 = (Ret (), s1)
        ∧ endpoint ∈ m_prohibitedEndpoints s1
        ∧ m_prohibitedEndpoints s ⊆ m_prohibitedEndpoints s1
        ∧ m_channels s1 = m_channels s
        ∧ providedSchemes s1 = providedSchemes s
        ∧ channels s1 = channels s
        ∧ next_channel s1 = next_channel s.
Proof.
  intros Hnew. pose proof (expansion_guarded endpoint Hnew) as Hsub.
  eexists. split; [apply prohibitEndpoint_run|]. split.
  - rewrite prohibitEndpoint_run. f_equal.
    unfold prohibit_one, prohibit_all, set_m_prohibitedEndpoints; simpl.
    f_equal. set_solver.
  - simpl. repeat split; set_solver.
Qed.

End two_calls.

Section two_orders.
Variables P Q : Platform.

(** X5.  The order of two prohibitions does not matter, provided
    that, where one of them is of a wildcard, the interfaces have
    the same addresses at both calls: the first call enumerates under
    [P] and the second under [Q], whichever endpoint comes first. *)
Theorem prohibitEndpoint_commutes (e1 e2 : Endpoint) (s : State) :
  (wildcard e1 ∨ wildcard e2 → nothing_new Q P ∧ nothing_new P Q) →
  (prohibitEndpoint (H := P) e1;; prohibitEndpoint (H := Q) e2) s
  = (prohibitEndpoint (H := P) e2;; prohibitEndpoint (H := Q) e1) s.
Proof.
  intros Hsame.
  pose proof (expansion_guarded P Q e1 (λ w, proj1 (Hsame (or_introl w)))) as H1.
  pose proof (expansion_guarded Q P e1 (λ w, proj2 (Hsame (or_introl w)))) as H1'.
  pose proof (expansion_guarded P Q e2 (λ w, proj1 (Hsame (or_intror w)))) as H2.
  pose proof (expansion_guarded Q P e2 (λ w, proj2 (Hsame (or_intror w)))) as H2'.
  rewrite !TcpFactory_registry.bind_run, !prohibitEndpoint_run. f_equal.
  unfold prohibit_one, prohibit_all, set_m_prohibitedEndpoints; simpl.
  f_equal. set_solver.
Qed.

End two_orders.

Lemma unplugged_nothing_new : nothing_new sample.unplugged sample.platform.
Proof. split; intros a Ha; set_solver. Qed.

Lemma prohibitEndpoint_idempotent_witness :
  ∃ s1, prohibitEndpoint (H := sample.platform) (Endpoint_v4 6363) initial
        = (Ret (), s1)
        ∧ prohibitEndpoint (H := sample.unplugged) (Endpoint_v4 6363) s1
          = (Ret (), s1).
Proof.
  destruct (prohibitEndpoint_idempotent sample.platform sample.unplugged
              (Endpoint_v4 6363) initial (λ _, unplugged_nothing_new))
    as (s1 & Hfirst & Hsecond & _).
  exists s1. split; [exact Hfirst|exact Hsecond].
Defined.

Lemma prohibitEndpoint_commutes_witness :
  (prohibitEndpoint (H := sample.platform) (Endpoint_v4 6363);;
   prohibitEndpoint (H := sample.platform) (Endpoint_v6 6363)) initial
  = (prohibitEndpoint (H := sample.platform) (Endpoint_v6 6363);;
     prohibitEndpoint (H := sample.platform) (Endpoint_v4 6363)) initial.
Proof.
  apply (prohibitEndpoint_commutes sample.platform sample.platform).
  intros _. split; split; intros a Ha; exact Ha.
Defined.

(** Where an interface has got a further address in between, the
    second call of the same prohibition goes on to prohibit it. *)
Lemma prohibitEndpoint_again_finds_new_address :
  let e := mkEndpoint (ip.V4 0xC0000208) 6363 in
  let s1 := (prohibitEndpoint (H := sample.platform) (Endpoint_v4 6363)
               initial).2 in
  let s2 := (prohibitEndpoint (H := sample.readdressed) (Endpoint_v4 6363)
               s1).2 in
  (e ∉ m_prohibitedEndpoints s1) ∧ e ∈ m_prohibitedEndpoints s2.
Proof.
  intros e s1 s2. subst s1 s2. rewrite !prohibitEndpoint_run. simpl.
  split; [|set_solver].
  rewrite !not_elem_of_union. repeat split; set_solver.
Qed.

End TcpFactory_prohibit_more.

(** ** The factory over its lifetime: what configuration keeps and adds *)

Module TcpFactory_keeps.
Import TcpFactory TcpFactory_prohibit TcpFactory_prohibit_more.
Import TcpFactory_registry TcpFactory_config TcpFactory_createFace.
Import TcpFactory_outbound std_map_facts.

Lemma advances_ret {S E A} (R : S → S → Prop) `{!Reflexive R} (a : A) :
  advances R (mret a : M S E A).
Proof. intros s. simpl. reflexivity. Qed.

Lemma advances_bind {S E A B} (R : S → S → Prop) `{!Transitive R}
    (m : M S E A) (f : A → M S E B) :
  advances R m → (∀ a, advances R (f a)) → advances R (m ≫= f).
Proof.
  intros Hm Hf s. rewrite bind_run. specialize (Hm s).
  destruct (m s) as [[a|e] s']; [|done].
  simpl in Hm. transitivity s'; [done|apply Hf].
Qed.

Lemma advances_when {S E} (R : S → S → Prop) `{!Reflexive R}
    (b : bool) (m : M S E ()) :
  advances R m → advances R (when b m).
Proof. intros Hm. destruct b; [done|]. by apply advances_ret. Qed.

Section keeps.
Context `{Platform}.

#[local] Instance extends_preorder : PreOrder extends.
Proof.
  split.
  - intros s. repeat split; auto.
  - intros s1 s2 s3 (Hf1 & Hs1 & Hp1 & Hn1 & Hc1) (Hf2 & Hs2 & Hp2 & Hn2 & Hc2).
    split; [auto|]. split; [set_solver|]. split; [set_solver|].
    split; [lia|]. intros p Hp.
    destruct (Hc1 p Hp) as [He1 Hl1].
    destruct (Hc2 p ltac:(lia)) as [He2 Hl2].
    split; [congruence|]. intros Hl.
    rewrite Hl2; [by apply Hl1|]. by rewrite Hl1.
Qed.

#[local] Instance within_preorder : PreOrder within.
Proof.
  split.
  - intros s. split; [set_solver|]. auto.
  - intros s1 s2 s3 [Hs1 Hk1] [Hs2 Hk2]. split; [set_solver|].
    intros k Hk. destruct (Hk2 k Hk) as [Hk'|]; auto.
Qed.

(** *** One step at a time *)

Lemma extends_prohibited (f : gset Endpoint → gset Endpoint) s :
  (∀ X, X ⊆ f X) → extends s (set_m_prohibitedEndpoints f s).
Proof.
  intros Hf. split; [done|]. split; [done|]. split; [apply Hf|]. by split.
Qed.

Lemma extends_schemes (f : gset string → gset string) s :
  (∀ X, X ⊆ f X) → extends s (set_providedSchemes f s).
Proof.
  intros Hf. split; [done|]. split; [apply Hf|]. split; [done|]. by split.
Qed.

Lemma extends_listen p cb s :
  isListening (channels s p) = false →
  extends s (set_channels (λ h, <[p := TcpChannel_listen cb (h p)]> h) s).
Proof.
  intros Hp. split; [done|]. split; [done|]. split; [done|]. split; [done|].
  simpl. intros q _. destruct (decide (p = q)) as [->|Hne].
  - rewrite fn_lookup_insert. split; [done|congruence].
  - by rewrite fn_lookup_insert_ne.
Qed.

Lemma extends_registered endpoint s :
  findChannel endpoint s = None → extends s (registered endpoint s).
Proof.
  intros Hf. split; [|split; [|split; [|split]]]; simpl.
  - intros k c Hk. unfold findChannel; simpl.
    rewrite find_assign_ne; [done|]. intros ->. unfold findChannel in *.
    congruence.
  - done.
  - set_solver.
  - lia.
  - intros p Hp. rewrite fn_lookup_insert_ne by lia. done.
Qed.

Lemma within_registered endpoint s :
  wildcard endpoint → within s (registered endpoint s).
Proof.
  intros Hw. split; simpl; [set_solver|].
  intros k Hk. apply keys_assign in Hk as [->|Hk]; auto.
Qed.

Lemma within_schemes scheme s :
  scheme ∈ tcp_schemes →
  within s (set_providedSchemes (λ X, {[scheme]} ∪ X) s).
Proof. intros Hs. split; simpl; [set_solver|auto]. Qed.

Lemma within_channels f s : within s (set_channels f s).
Proof. split; simpl; [set_solver|auto]. Qed.

Lemma channels_prohibited_initial : channels_prohibited initial.
Proof. intros k Hk. by apply elem_of_nil in Hk. Qed.

Lemma channels_prohibited_grow (f : gset Endpoint → gset Endpoint) s :
  (∀ X, X ⊆ f X) → channels_prohibited s →
  channels_prohibited (set_m_prohibitedEndpoints f s).
Proof.
  intros Hf Hs k Hk. destruct (Hs k Hk) as [Hk1 Hk2]. simpl.
  split; [by apply Hf|]. intros e He. by apply Hf, Hk2.
Qed.

Lemma channels_prohibited_registered endpoint s :
  channels_prohibited s → channels_prohibited (registered endpoint s).
Proof.
  intros Hs k Hk. simpl in *. apply keys_assign in Hk as [->|Hk].
  - split; [set_solver|]. intros e He.
    apply elem_of_union_r, elem_of_union_l. by apply elem_of_list_to_set.
  - destruct (Hs k Hk) as [Hk1 Hk2]. split; [set_solver|].
    intros e He. apply elem_of_union_r, elem_of_union_r. auto.
Qed.

(** *** [createChannel], by cases *)

Lemma createChannel_cases endpoint s channel s1 :
  createChannel endpoint s = (Ret channel, s1) →
  (findChannel endpoint s = Some channel ∧ s1 = s)
  ∨ (findChannel endpoint s = None ∧ channel = next_channel s
     ∧ s1 = registered endpoint s).
Proof.
  destruct (findChannel endpoint s) as [c|] eqn:Hf.
  - rewrite (createChannel_found _ _ _ Hf). intros [= -> ->]. by left.
  - rewrite (createChannel_new _ _ Hf). intros [= <- <-]. by right.
Qed.

Lemma createChannel_finds endpoint s channel s1 :
  createChannel endpoint s = (Ret channel, s1) →
  findChannel endpoint s1 = Some channel.
Proof.
  intros [[Hf ->]|(Hf & -> & ->)]%createChannel_cases; [done|].
  apply find_assign.
Qed.

Lemma createChannel_extends endpoint : advances extends (createChannel endpoint).
Proof.
  intros s. destruct (returns_createChannel endpoint s) as (ch & s1 & Hc).
  rewrite Hc. simpl.
  apply createChannel_cases in Hc as [[_ ->]|(Hf & _ & ->)]; [reflexivity|].
  by apply extends_registered.
Qed.

Lemma createChannel_within endpoint :
  wildcard endpoint → advances within (createChannel endpoint).
Proof.
  intros Hw s. destruct (returns_createChannel endpoint s) as (ch & s1 & Hc).
  rewrite Hc. simpl.
  apply createChannel_cases in Hc as [[_ ->]|(Hf & _ & ->)]; [reflexivity|].
  by apply within_registered.
Qed.

Lemma createChannel_prohibited endpoint :
  preserves channels_prohibited (createChannel endpoint).
Proof.
  intros s Hs. destruct (returns_createChannel endpoint s) as (ch & s1 & Hc).
  rewrite Hc. simpl.
  apply createChannel_cases in Hc as [[_ ->]|(Hf & _ & ->)]; [done|].
  by apply channels_prohibited_registered.
Qed.

(** *** One enabled family, in one piece *)

Lemma enable_family_run endpoint scheme o context s channel s1 :
  createChannel endpoint s = (Ret channel, s1) →
  enable_family endpoint scheme o context s
  = (Ret (), set_providedSchemes (λ X, {[scheme]} ∪ X)
               (listened channel (addFace context) (wantListen o) s1)).
Proof.
  intros Hc. unfold enable_family, listened. rewrite bind_run, Hc.
  unfold channel_isListening. rewrite !bind_run. simpl.
  by destruct (wantListen o && negb (isListening (channels s1 channel))).
Qed.

Lemma extends_listened channel cb want s : extends s (listened channel cb want s).
Proof.
  unfold listened.
  destruct (want && negb (isListening (channels s channel))) eqn:Hw;
    [|reflexivity].
  apply andb_true_iff in Hw as [_ Hw]. apply negb_true_iff in Hw.
  by apply extends_listen.
Qed.

Lemma within_listened channel cb want s : within s (listened channel cb want s).
Proof.
  unfold listened.
  destruct (want && negb (isListening (channels s channel)));
    [apply within_channels|reflexivity].
Qed.

Lemma registry_ok_listened channel cb want s :
  registry_ok s → registry_ok (listened channel cb want s).
Proof.
  intros Hs. unfold listened.
  destruct (want && negb (isListening (channels s channel)));
    [by apply registry_ok_listen|done].
Qed.

Lemma listened_listens channel cb s :
  isListening (channels (listened channel cb true s) channel) = true.
Proof.
  unfold listened. simpl.
  destruct (isListening (channels s channel)) eqn:Hl; simpl; [done|].
  by rewrite fn_lookup_insert.
Qed.

Lemma enable_family_extends endpoint scheme o context :
  advances extends (enable_family endpoint scheme o context).
Proof.
  intros s. destruct (returns_createChannel endpoint s) as (ch & s1 & Hc).
  rewrite (enable_family_run _ _ _ _ _ _ _ Hc). simpl.
  pose proof (createChannel_extends endpoint s) as H1. rewrite Hc in H1.
  transitivity s1; [done|].
  etransitivity; [apply extends_listened|]. apply extends_schemes. set_solver.
Qed.

Lemma enable_family_within endpoint scheme o context :
  wildcard endpoint → scheme ∈ tcp_schemes →
  advances within (enable_family endpoint scheme o context).
Proof.
  intros Hw Hsch s.
  destruct (returns_createChannel endpoint s) as (ch & s1 & Hc).
  rewrite (enable_family_run _ _ _ _ _ _ _ Hc). simpl.
  pose proof (createChannel_within endpoint Hw s) as H1. rewrite Hc in H1.
  transitivity s1; [done|].
  etransitivity; [apply within_listened|]. by apply within_schemes.
Qed.

Lemma channels_prohibited_same s s' :
  m_channels s' = m_channels s →
  m_prohibitedEndpoints s' = m_prohibitedEndpoints s →
  channels_prohibited s → channels_prohibited s'.
Proof. unfold channels_prohibited. intros -> ->. done. Qed.

Lemma listened_frame channel cb want s :
  m_channels (listened channel cb want s) = m_channels s
  ∧ m_prohibitedEndpoints (listened channel cb want s) = m_prohibitedEndpoints s
  ∧ providedSchemes (listened channel cb want s) = providedSchemes s
  ∧ next_channel (listened channel cb want s) = next_channel s.
Proof.
  unfold listened. by destruct (want && negb (isListening (channels s channel))).
Qed.

Lemma enable_family_prohibited endpoint scheme o context :
  preserves channels_prohibited (enable_family endpoint scheme o context).
Proof.
  intros s Hs. destruct (returns_createChannel endpoint s) as (ch & s1 & Hc).
  rewrite (enable_family_run _ _ _ _ _ _ _ Hc). simpl.
  pose proof (createChannel_prohibited endpoint s Hs) as H1. rewrite Hc in H1.
  destruct (listened_frame ch (addFace context) (wantListen o) s1)
    as (Hm & Hp & _ & _).
  eapply channels_prohibited_same; [| |exact H1]; done.
Qed.

Lemma enable_family_enabled endpoint scheme o context s :
  registry_ok s →
  registry_ok (enable_family endpoint scheme o context s).2
  ∧ family_enabled endpoint scheme (wantListen o)
      (enable_family endpoint scheme o context s).2.
Proof.
  intros Hs. destruct (returns_createChannel endpoint s) as (ch & s1 & Hc).
  rewrite (enable_family_run _ _ _ _ _ _ _ Hc). simpl.
  pose proof (createChannel_ok endpoint s Hs) as Hok. rewrite Hc in Hok.
  simpl in Hok.
  pose proof (createChannel_finds _ _ _ _ Hc) as Hf.
  destruct (listened_frame ch (addFace context) (wantListen o) s1)
    as (Hm & _ & _ & Hn).
  split.
  - apply registry_ok_schemes. by apply registry_ok_listened.
  - exists ch. unfold findChannel; simpl. rewrite Hm, Hn.
    destruct (proj2 Hok endpoint ch (find_Some_elem _ _ _ Hf)) as [Hlt He].
    split; [done|]. split; [done|]. split; [|split; [|set_solver]].
    + unfold listened.
      destruct (wantListen o && negb (isListening (channels s1 ch))); [|done].
      simpl. by rewrite fn_lookup_insert.
    + intros ->. apply listened_listens.
Qed.

Lemma family_enabled_extends endpoint scheme listen s s' :
  extends s s' → family_enabled endpoint scheme listen s →
  family_enabled endpoint scheme listen s'.
Proof.
  intros (Hf & Hs & _ & Hn & Hc) (p & Hp & Hlt & He & Hl & Hsch).
  exists p. destruct (Hc p Hlt) as [He' Hl'].
  split; [auto|]. split; [lia|]. split; [congruence|]. split; [|set_solver].
  intros Hlisten. rewrite Hl'; auto.
Qed.

(** *** The whole of [processConfig] *)

Lemma apply_options_run o context s :
  isDryRun context = false →
  apply_options o context s =
  (Ret (),
   let s0 := set_providedSchemes (λ X, {["tcp"]} ∪ X) s in
   let s4 := if enableV4 o
             then (enable_family (Endpoint_v4 (opt_port o)) "tcp4" o context s0).2
             else s0 in
   if enableV6 o
   then (enable_family (Endpoint_v6 (opt_port o)) "tcp6" o context s4).2
   else s4).
Proof.
  intros Hdry. unfold apply_options. rewrite Hdry. simpl.
  rewrite bind_run. simpl. rewrite bind_run.
  destruct (enableV4 o); simpl.
  - destruct (returns_enable_family (Endpoint_v4 (opt_port o)) "tcp4" o context
                (set_providedSchemes (λ X, {["tcp"]} ∪ X) s))
      as ([] & s4 & ->). simpl.
    destruct (enableV6 o); simpl; [|done].
    by destruct (returns_enable_family (Endpoint_v6 (opt_port o)) "tcp6" o
                   context s4) as ([] & s6 & ->).
  - destruct (enableV6 o); simpl; [|done].
    by destruct (returns_enable_family (Endpoint_v6 (opt_port o)) "tcp6" o
                   context (set_providedSchemes (λ X, {["tcp"]} ∪ X) s))
      as ([] & s6 & ->).
Qed.

Lemma apply_options_advances (R : State → State → Prop) `{!PreOrder R}
    o context :
  (∀ scheme s, scheme ∈ tcp_schemes →
               R s (set_providedSchemes (λ X, {[scheme]} ∪ X) s)) →
  (∀ endpoint scheme, wildcard endpoint → scheme ∈ tcp_schemes →
                      advances R (enable_family endpoint scheme o context)) →
  advances R (apply_options o context).
Proof.
  intros Hsch Hfam s.
  destruct (isDryRun context) eqn:Hdry.
  { rewrite apply_options_dry_run by done. reflexivity. }
  rewrite apply_options_run by done. simpl.
  assert ("tcp" ∈ tcp_schemes ∧ "tcp4" ∈ tcp_schemes ∧ "tcp6" ∈ tcp_schemes)
    as (H0 & H4 & H6) by (unfold tcp_schemes; set_solver).
  etransitivity; [apply (Hsch "tcp" s H0)|].
  assert (wildcard (Endpoint_v4 (opt_port o))) as Hw4 by (by left).
  assert (wildcard (Endpoint_v6 (opt_port o))) as Hw6 by (by right).
  destruct (enableV4 o), (enableV6 o); try reflexivity.
  - etransitivity; [apply (Hfam _ _ Hw4 H4)|]. apply (Hfam _ _ Hw6 H6).
  - apply (Hfam _ _ Hw4 H4).
  - apply (Hfam _ _ Hw6 H6).
Qed.

Lemma processConfig_advances (R : State → State → Prop) `{!PreOrder R}
    configSection context :
  (∀ scheme s, scheme ∈ tcp_schemes →
               R s (set_providedSchemes (λ X, {[scheme]} ∪ X) s)) →
  (∀ o endpoint scheme, wildcard endpoint → scheme ∈ tcp_schemes →
                        advances R (enable_family endpoint scheme o context)) →
  advances R (processConfig configSection context).
Proof.
  intros Hsch Hfam s. destruct configSection as [sec|]; [|reflexivity].
  rewrite processConfig_run.
  pose proof (parse_section_state sec default_options s) as Hst.
  destruct (parse_section sec default_options s) as [[o|e0] s0];
    simpl in Hst; subst s0; [|reflexivity].
  destruct (negb (enableV4 o) && negb (enableV6 o)); [reflexivity|].
  apply apply_options_advances; auto.
Qed.

Lemma processConfig_prohibited configSection context :
  preserves channels_prohibited (processConfig configSection context).
Proof.
  intros s Hs. destruct configSection as [sec|]; [|done].
  rewrite processConfig_run.
  pose proof (parse_section_state sec default_options s) as Hst.
  destruct (parse_section sec default_options s) as [[o|e0] s0];
    simpl in Hst; subst s0; [|done].
  destruct (negb (enableV4 o) && negb (enableV6 o)); [done|].
  destruct (isDryRun context) eqn:Hdry.
  { by rewrite apply_options_dry_run. }
  rewrite apply_options_run by done. simpl.
  assert (channels_prohibited (set_providedSchemes (λ X, {["tcp"]} ∪ X) s))
    as H0 by done.
  destruct (enableV4 o), (enableV6 o); [| | |done].
  - by apply enable_family_prohibited, enable_family_prohibited.
  - by apply enable_family_prohibited.
  - by apply enable_family_prohibited.
Qed.

(** X7.  Every endpoint that has a channel is prohibited, with all
    that it expands to: this holds of a new factory and is kept by
    [createChannel], by [prohibitEndpoint] and by [processConfig],
    whatever their arguments. *)
Theorem channels_stay_prohibited :
  channels_prohibited initial
  ∧ (∀ s endpoint,
       channels_prohibited s → channels_prohibited (createChannel endpoint s).2)
  ∧ (∀ s endpoint,
       channels_prohibited s →
       channels_prohibited (prohibitEndpoint endpoint s).2)
  ∧ (∀ s configSection context,
       channels_prohibited s →
       channels_prohibited (processConfig configSection context s).2).
Proof.
  split; [apply channels_prohibited_initial|]. split; [|split].
  - intros s endpoint. apply createChannel_prohibited.
  - intros s endpoint Hs. rewrite prohibitEndpoint_run. simpl.
    apply (channels_prohibited_grow (λ X, {[endpoint]} ∪ X)); [set_solver|].
    apply (channels_prohibited_grow (λ X, list_to_set (expansion endpoint) ∪ X));
      [set_solver|done].
  - intros s configSection context. apply processConfig_prohibited.
Qed.

(** X8.  The factory does not dial itself: where that invariant
    holds, a request whose remote resolves to the endpoint of one of
    the factory's channels, or to an endpoint that such a wildcard
    expands to, is rejected with code 406 and handed to no
    channel. *)
Theorem own_endpoints_are_refused (s : State) (r : Request)
    (k remote : Endpoint) :
  channels_prohibited s →
  isCanonical (remoteUri r) = true →
  k ∈ std_map.keys (m_channels s) →
  remote = k ∨ remote ∈ expansion k →
  resolve (remoteUri r) = Some remote →
  ∃ reason, call s r = OnFailure (onFailure r) 406 reason.
Proof.
  intros Hinv Hc Hk Hremote Hres.
  assert (remote ∈ m_prohibitedEndpoints s) as Hp.
  { destruct (Hinv k Hk) as [H1 H2]. destruct Hremote as [->|He]; auto. }
  assert (violates s r ProhibitedEndpoint = true) as Hv.
  { simpl. rewrite Hres. by apply bool_decide_eq_true. }
  destruct (earliest_exists s r _ Hv) as (g & Hg & Hmin).
  pose proof (call_earliest s r g Hc Hg Hmin) as Hrej.
  unfold rejected_by in Hrej. rewrite Hrej.
  exists (rejection g).2. by destruct g.
Qed.

(** X9.  [processConfig] only adds.  After any call, every channel
    of the registry is still under its endpoint, every scheme and
    every prohibition is still there, every channel object made
    before is at its endpoint and, if it listened, untouched; and
    what is new is among the schemes tcp, tcp4 and tcp6 and channels
    at wildcard endpoints. *)
Theorem processConfig_only_adds (s : State)
    (configSection : option ConfigSection) (context : ConfigContext) :
  extends s (processConfig configSection context s).2
  ∧ within s (processConfig configSection context s).2.
Proof.
  split.
  - apply processConfig_advances; [apply _| |].
    + intros scheme s0 _. apply extends_schemes. set_solver.
    + intros o endpoint scheme _ _. apply enable_family_extends.
  - apply processConfig_advances; [apply _| |].
    + intros scheme s0 Hs. by apply within_schemes.
    + intros o endpoint scheme. apply enable_family_within.
Qed.

(** *** A configuration that is accepted *)

Lemma apply_options_enables o context s :
  registry_ok s → isDryRun context = false →
  registry_ok (apply_options o context s).2
  ∧ "tcp" ∈ providedSchemes (apply_options o context s).2
  ∧ (enableV4 o = true →
     family_enabled (Endpoint_v4 (opt_port o)) "tcp4" (wantListen o)
       (apply_options o context s).2)
  ∧ (enableV6 o = true →
     family_enabled (Endpoint_v6 (opt_port o)) "tcp6" (wantListen o)
       (apply_options o context s).2).
Proof.
  intros Hs Hdry. rewrite apply_options_run by done. simpl.
  set (s0 := set_providedSchemes (λ X, {["tcp"]} ∪ X) s).
  assert (registry_ok s0) as Hs0 by done.
  assert ("tcp" ∈ providedSchemes s0) as Htcp by (simpl; set_solver).
  destruct (enableV4 o) eqn:E4.
  - destruct (enable_family_enabled (Endpoint_v4 (opt_port o)) "tcp4" o context
                s0 Hs0) as [Hs4 Hf4].
    pose proof (enable_family_extends (Endpoint_v4 (opt_port o)) "tcp4" o
                  context s0) as Hx4.
    set (s4 := (enable_family (Endpoint_v4 (opt_port o)) "tcp4" o context s0).2)
      in *.
    assert ("tcp" ∈ providedSchemes s4) as Htcp4.
    { destruct Hx4 as (_ & Hsub & _). set_solver. }
    destruct (enableV6 o) eqn:E6.
    + destruct (enable_family_enabled (Endpoint_v6 (opt_port o)) "tcp6" o
                  context s4 Hs4) as [Hs6 Hf6].
      pose proof (enable_family_extends (Endpoint_v6 (opt_port o)) "tcp6" o
                    context s4) as Hx6.
      split; [done|]. split; [|split; [|done]].
      * destruct Hx6 as (_ & Hsub & _). set_solver.
      * intros _. by eapply family_enabled_extends.
    + split; [done|]. split; [done|]. by split.
  - destruct (enableV6 o) eqn:E6.
    + destruct (enable_family_enabled (Endpoint_v6 (opt_port o)) "tcp6" o
                  context s0 Hs0) as [Hs6 Hf6].
      pose proof (enable_family_extends (Endpoint_v6 (opt_port o)) "tcp6" o
                    context s0) as Hx6.
      split; [done|]. split; [|by split].
      destruct Hx6 as (_ & Hsub & _). set_solver.
    + split; [done|]. split; [done|]. by split.
Qed.

(** X10.  What an accepted configuration gives, outside dry-run and
    from a registry in order: the call returns; the scheme tcp is
    provided; and for each family that the section leaves enabled,
    the registry has a channel at the family's wildcard endpoint at
    the configured port, the channel listens if the section asks for
    listening, and the family's scheme is provided. *)
Theorem processConfig_enables (s : State) (sec : ConfigSection)
    (context : ConfigContext) (o : Options) :
  registry_ok s →
  isDryRun context = false →
  parse_section sec default_options s = (Ret o, s) →
  enableV4 o = true ∨ enableV6 o = true →
  ∃ s', processConfig (Some sec) context s = (Ret (), s')
        ∧ registry_ok s'
        ∧ "tcp" ∈ providedSchemes s'
        ∧ (enableV4 o = true →
           family_enabled (Endpoint_v4 (opt_port o)) "tcp4" (wantListen o) s')
        ∧ (enableV6 o = true →
           family_enabled (Endpoint_v6 (opt_port o)) "tcp6" (wantListen o) s').
Proof.
  intros Hs Hdry Hp Hen. rewrite processConfig_run, Hp.
  assert (negb (enableV4 o) && negb (enableV6 o) = false) as ->.
  { destruct Hen as [-> | ->]; [done|apply andb_false_r]. }
  destruct (returns_apply_options o context s) as ([] & s' & Ha).
  exists s'. split; [done|].
  pose proof (apply_options_enables o context s Hs Hdry) as He.
  by rewrite Ha in He.
Qed.

(** *** The same configuration again *)

Lemma set_providedSchemes_present scheme s :
  scheme ∈ providedSchemes s →
  set_providedSchemes (λ X, {[scheme]} ∪ X) s = s.
Proof.
  intros Hs. destruct s. unfold set_providedSchemes; simpl in *.
  f_equal. set_solver.
Qed.

Lemma enable_family_fixed endpoint scheme o context s :
  family_enabled endpoint scheme (wantListen o) s →
  enable_family endpoint scheme o context s = (Ret (), s).
Proof.
  intros (p & Hp & _ & _ & Hl & Hsch).
  rewrite (enable_family_run _ _ _ _ _ _ _ (createChannel_found _ _ _ Hp)).
  assert (listened p (addFace context) (wantListen o) s = s) as ->.
  { unfold listened. destruct (wantListen o); [|done]. by rewrite Hl. }
  by rewrite set_providedSchemes_present.
Qed.

Lemma apply_options_fixed o context s :
  "tcp" ∈ providedSchemes s →
  (enableV4 o = true →
   family_enabled (Endpoint_v4 (opt_port o)) "tcp4" (wantListen o) s) →
  (enableV6 o = true →
   family_enabled (Endpoint_v6 (opt_port o)) "tcp6" (wantListen o) s) →
  apply_options o context s = (Ret (), s).
Proof.
  intros Htcp H4 H6. destruct (isDryRun context) eqn:Hdry.
  { by apply apply_options_dry_run. }
  rewrite apply_options_run by done. simpl.
  rewrite set_providedSchemes_present by done.
  destruct (enableV4 o).
  - rewrite (enable_family_fixed _ _ _ _ _ (H4 eq_refl)).
    destruct (enableV6 o); [|done].
    cbn [snd]. by rewrite (enable_family_fixed _ _ _ _ _ (H6 eq_refl)).
  - destruct (enableV6 o); [|done].
    by rewrite (enable_family_fixed _ _ _ _ _ (H6 eq_refl)).
Qed.

(** The loop reads no state. *)
Lemma parse_section_any_state sec o s s' :
  parse_section sec o s' = ((parse_section sec o s).1, s').
Proof.
  revert o. induction sec as [|kv sec IH]; intros o; [done|].
  rewrite !parse_section_cons. destruct (parse_entry kv o); [done|]. apply IH.
Qed.

(** X11.  Configuring twice is configuring once: after a call
    outside dry-run, from a registry in order, a second call with the
    same section, under any context, ends as the first did (returns,
    or throws the same error) and changes nothing. *)
Theorem processConfig_twice (s : State) (sec : ConfigSection)
    (context context' : ConfigContext) :
  registry_ok s →
  isDryRun context = false →
  processConfig (Some sec) context' (processConfig (Some sec) context s).2
  = processConfig (Some sec) context s.
Proof.
  intros Hs Hdry. rewrite !processConfig_run.
  pose proof (parse_section_state sec default_options s) as Hst.
  destruct (parse_section sec default_options s) as [[o|e0] s0] eqn:Hp;
    simpl in Hst; subst s0.
  - destruct (negb (enableV4 o) && negb (enableV6 o)) eqn:Hboth.
    + simpl. rewrite Hp. by rewrite Hboth.
    + destruct (returns_apply_options o context s) as ([] & s1 & Ha).
      pose proof (apply_options_enables o context s Hs Hdry) as He.
      rewrite Ha in *. simpl in He. destruct He as (_ & Htcp & H4 & H6).
      simpl. rewrite (parse_section_any_state sec default_options s s1), Hp.
      simpl. rewrite Hboth. by apply apply_options_fixed.
  - simpl. by rewrite Hp.
Qed.

(** *** What the options are read from *)

Lemma parse_entry_sets kv o o1 :
  parse_entry kv o = inr o1 →
  (kv.1 = "listen" → parseYesNo kv section_name = inr (wantListen o1))
  ∧ (kv.1 = "port" → parseNumber_uint16 kv section_name = inr (opt_port o1))
  ∧ (kv.1 = "enable_v4" → parseYesNo kv section_name = inr (enableV4 o1))
  ∧ (kv.1 = "enable_v6" → parseYesNo kv section_name = inr (enableV6 o1)).
Proof.
  unfold parse_entry. intros He.
  repeat split; intros Hk; rewrite Hk in He; simpl in He;
    repeat case_match; by simplify_eq.
Qed.

Lemma parse_entry_other kv o o1 :
  parse_entry kv o = inr o1 →
  (kv.1 ≠ "listen" → wantListen o1 = wantListen o)
  ∧ (kv.1 ≠ "port" → opt_port o1 = opt_port o)
  ∧ (kv.1 ≠ "enable_v4" → enableV4 o1 = enableV4 o)
  ∧ (kv.1 ≠ "enable_v6" → enableV6 o1 = enableV6 o).
Proof.
  unfold parse_entry. intros He.
  repeat split; intros Hk; apply String.eqb_neq in Hk;
    repeat case_match; by simplify_eq.
Qed.

Lemma parse_entry_recognized kv o o1 :
  parse_entry kv o = inr o1 → kv.1 ∈ recognized.
Proof.
  unfold parse_entry, recognized. intros He.
  repeat (case_match; [match goal with
                       | Hk : String.eqb _ _ = true |- _ =>
                           apply String.eqb_eq in Hk; rewrite Hk; set_solver
                       end|]).
  done.
Qed.

Lemma parse_section_keeps {A} (key : string) (proj : Options → A) sec o s o' :
  (∀ kv o0 o1, kv.1 ≠ key → parse_entry kv o0 = inr o1 → proj o1 = proj o0) →
  (∀ kv, kv ∈ sec → kv.1 ≠ key) →
  parse_section sec o s = (Ret o', s) → proj o' = proj o.
Proof.
  intros Hproj. revert o. induction sec as [|kv sec IH]; intros o Hkeys.
  - by intros [= ->].
  - rewrite parse_section_cons.
    destruct (parse_entry kv o) as [msg|o1] eqn:He; [done|]. intros Hp.
    rewrite (IH o1); [|intros; apply Hkeys; by right|done].
    eapply Hproj; [|done]. apply Hkeys. left.
Qed.

(** X12.  How the loop reads a section that it accepts: every key is
    one of the four; for each key the last entry decides, with the
    value that its parser gives; a key that the section does not have
    keeps the value from before the loop (the default); and the
    factory is not touched. *)
Theorem options_last_entry_wins (sec : ConfigSection) (o o' : Options)
    (s s' : State) :
  parse_section sec o s = (Ret o', s') →
  s' = s
  ∧ (∀ kv, kv ∈ sec → kv.1 ∈ recognized)
  ∧ (∀ before kv after,
       sec = before ++ kv :: after →
       (∀ kv', kv' ∈ after → kv'.1 ≠ kv.1) →
       (kv.1 = "listen" → parseYesNo kv section_name = inr (wantListen o'))
       ∧ (kv.1 = "port" →
          parseNumber_uint16 kv section_name = inr (opt_port o'))
       ∧ (kv.1 = "enable_v4" →
          parseYesNo kv section_name = inr (enableV4 o'))
       ∧ (kv.1 = "enable_v6" →
          parseYesNo kv section_name = inr (enableV6 o')))
  ∧ ((∀ kv, kv ∈ sec → kv.1 ≠ "listen") → wantListen o' = wantListen o)
  ∧ ((∀ kv, kv ∈ sec → kv.1 ≠ "port") → opt_port o' = opt_port o)
  ∧ ((∀ kv, kv ∈ sec → kv.1 ≠ "enable_v4") → enableV4 o' = enableV4 o)
  ∧ ((∀ kv, kv ∈ sec → kv.1 ≠ "enable_v6") → enableV6 o' = enableV6 o).
Proof.
  intros Hp.
  pose proof (parse_section_state sec o s) as Hst. rewrite Hp in Hst.
  simpl in Hst. subst s'. split; [done|].
  assert (∀ kv o0 o1, kv.1 ≠ "listen" → parse_entry kv o0 = inr o1 →
                      wantListen o1 = wantListen o0) as Kl.
  { intros kv o0 o1 Hk He. by apply (parse_entry_other kv o0 o1 He). }
  assert (∀ kv o0 o1, kv.1 ≠ "port" → parse_entry kv o0 = inr o1 →
                      opt_port o1 = opt_port o0) as Kp.
  { intros kv o0 o1 Hk He. by apply (parse_entry_other kv o0 o1 He). }
  assert (∀ kv o0 o1, kv.1 ≠ "enable_v4" → parse_entry kv o0 = inr o1 →
                      enableV4 o1 = enableV4 o0) as K4.
  { intros kv o0 o1 Hk He. by apply (parse_entry_other kv o0 o1 He). }
  assert (∀ kv o0 o1, kv.1 ≠ "enable_v6" → parse_entry kv o0 = inr o1 →
                      enableV6 o1 = enableV6 o0) as K6.
  { intros kv o0 o1 Hk He. by apply (parse_entry_other kv o0 o1 He). }
  split; [|split; [|split; [|split; [|split]]]].
  - clear Kl Kp K4 K6. revert o Hp.
    induction sec as [|kv0 sec IH]; intros o Hp kv Hkv.
    { by apply elem_of_nil in Hkv. }
    rewrite parse_section_cons in Hp.
    destruct (parse_entry kv0 o) as [msg|o1] eqn:He; [done|].
    apply elem_of_cons in Hkv as [->|Hkv].
    + by eapply parse_entry_recognized.
    + by eapply IH.
  - intros before kv after -> Hafter.
    apply parse_section_app in Hp as (o0 & _ & Hp).
    rewrite parse_section_cons in Hp.
    destruct (parse_entry kv o0) as [msg|o1] eqn:He; [done|].
    destruct (parse_entry_sets kv o0 o1 He) as (Sl & Sp & S4 & S6).
    repeat split; intros Hk; rewrite Hk in Hafter.
    + rewrite (parse_section_keeps "listen" wantListen after o1 s o' Kl Hafter Hp).
      auto.
    + rewrite (parse_section_keeps "port" opt_port after o1 s o' Kp Hafter Hp).
      auto.
    + rewrite (parse_section_keeps "enable_v4" enableV4 after o1 s o' K4 Hafter Hp).
      auto.
    + rewrite (parse_section_keeps "enable_v6" enableV6 after o1 s o' K6 Hafter Hp).
      auto.
  - intros Hk. by eapply (parse_section_keeps "listen" wantListen).
  - intros Hk. by eapply (parse_section_keeps "port" opt_port).
  - intros Hk. by eapply (parse_section_keeps "enable_v4" enableV4).
  - intros Hk. by eapply (parse_section_keeps "enable_v6" enableV6).
Qed.

(** *** The list of channels *)

Lemma ordered_NoDup {V} (m : std_map.t V) :
  std_map.ordered m → NoDup (std_map.keys m).
Proof.
  unfold std_map.ordered. generalize (std_map.keys m). clear m.
  induction 1 as [|x l Hs IH Hall]; constructor; [|done].
  intros Hin. rewrite list.Forall_forall in Hall.
  by apply (irreflexivity Endpoint_lt x), Hall.
Qed.

Lemma keys_of_channels s :
  registry_ok s →
  std_map.keys (m_channels s)
  = (λ p, localEndpoint (channels s p)) <$> getChannels s.
Proof.
  intros [_ Hptr]. unfold std_map.keys, getChannels.
  induction (m_channels s) as [|[k p] m IH]; [done|].
  rewrite !fmap_cons. simpl. f_equal.
  - symmetry. apply (Hptr k p). left.
  - apply IH. intros k' p' Hin. apply Hptr. by right.
Qed.

(** X13.  In a factory whose registry is in order, [getChannels]
    lists each channel once: the list has no channel twice, it has as
    many channels as the registry has endpoints, a channel is in it
    exactly when some endpoint finds it, two endpoints never find the
    same channel, and it has the channel that a [createChannel] has
    just returned. *)
Theorem getChannels_lists_each_channel_once (s : State) :
  registry_ok s →
  NoDup (getChannels s)
  ∧ length (getChannels s) = length (std_map.keys (m_channels s))
  ∧ (∀ channel, channel ∈ getChannels s ↔
                ∃ k, findChannel k s = Some channel)
  ∧ (∀ k1 k2 c1 c2,
       findChannel k1 s = Some c1 → findChannel k2 s = Some c2 →
       k1 ≠ k2 → c1 ≠ c2)
  ∧ (∀ endpoint channel s1,
       createChannel endpoint s = (Ret channel, s1) →
       channel ∈ getChannels s1).
Proof.
  intros Hok. split; [|split; [|split; [|split]]].
  - apply (NoDup_fmap_1 (λ p, localEndpoint (channels s p))).
    rewrite <- keys_of_channels by done. apply ordered_NoDup, Hok.
  - unfold getChannels, std_map.keys. by rewrite !length_fmap.
  - intros channel. unfold getChannels. rewrite list_elem_of_fmap. split.
    + intros ([k p] & -> & Hin). exists k. apply elem_find; [apply Hok|done].
    + intros [k Hk]. exists (k, channel). split; [done|].
      by apply find_Some_elem.
  - intros k1 k2 c1 c2 H1 H2 Hne ->.
    apply find_Some_elem in H1, H2.
    destruct (proj2 Hok k1 c2 H1) as [_ E1].
    destruct (proj2 Hok k2 c2 H2) as [_ E2]. congruence.
  - intros endpoint channel s1 Hc.
    apply createChannel_finds, find_Some_elem in Hc.
    unfold getChannels. apply list_elem_of_fmap. by exists (endpoint, channel).
Qed.

End keeps.

Lemma two_channels_ok : registry_ok sample.two_channels.
Proof.
  split; [apply two_channels_ordered|]. intros k p Hin. simpl in Hin.
  apply elem_of_cons in Hin as [[= -> ->]|Hin]; [by split; [simpl; lia|]|].
  apply list_elem_of_singleton in Hin as [= -> ->]. by split; [simpl; lia|].
Qed.

Lemma configured_prohibited :
  channels_prohibited (H := sample.platform) scenarios.configured.
Proof.
  apply processConfig_prohibited, channels_prohibited_initial.
Qed.

Lemma own_endpoints_are_refused_witness :
  ∃ reason,
    call (H := sample.platform) scenarios.configured
         (mkRequest (sample.uri "192.0.2.7" "6363") None
            FACE_PERSISTENCY_PERSISTENT false 1%nat 2%nat)
    = OnFailure 2%nat 406 reason.
Proof.
  apply (own_endpoints_are_refused (H := sample.platform) scenarios.configured
           (mkRequest (sample.uri "192.0.2.7" "6363") None
              FACE_PERSISTENCY_PERSISTENT false 1%nat 2%nat)
           (Endpoint_v4 6363) (mkEndpoint (ip.V4 0xC0000207) 6363)
           configured_prohibited eq_refl).
  - vm_compute. left.
  - right. vm_compute. right. left.
  - reflexivity.
Defined.

Lemma processConfig_enables_witness :
  ∃ s', processConfig (H := sample.platform) (Some scenarios.section_A)
          (mkContext false 7%nat) initial = (Ret (), s')
        ∧ family_enabled (Endpoint_v4 6363) "tcp4" true s'
        ∧ family_enabled (Endpoint_v6 6363) "tcp6" true s'.
Proof.
  destruct (processConfig_enables (H := sample.platform) initial
              scenarios.section_A (mkContext false 7%nat)
              (mkOptions true 6363 true true)
              registry_ok_initial eq_refl eq_refl (or_introl eq_refl))
    as (s' & Hp & _ & _ & H4 & H6).
  exists s'. split; [exact Hp|]. split; [exact (H4 eq_refl)|exact (H6 eq_refl)].
Defined.

Lemma processConfig_twice_witness :
  processConfig (H := sample.platform) (Some scenarios.section_A)
    (mkContext false 8%nat) scenarios.configured
  = processConfig (H := sample.platform) (Some scenarios.section_A)
      (mkContext false 7%nat) initial.
Proof.
  apply (processConfig_twice (H := sample.platform) initial scenarios.section_A
           (mkContext false 7%nat) (mkContext false 8%nat)
           registry_ok_initial eq_refl).
Defined.

Lemma options_last_entry_wins_witness :
  parseNumber_uint16 (Platform := sample.platform) ("port", "6363")
    section_name = inr 6363.
Proof.
  destruct (options_last_entry_wins (H := sample.platform) scenarios.section_A
              default_options (mkOptions true 6363 true true) initial initial
              eq_refl) as (_ & _ & Hlast & _).
  apply (Hlast [("listen", "yes")] ("port", "6363")
           [("enable_v4", "yes"); ("enable_v6", "yes")] eq_refl).
  - intros kv Hkv. apply elem_of_cons in Hkv as [->|Hkv]; [done|].
    apply list_elem_of_singleton in Hkv. by subst.
  - reflexivity.
Defined.

Lemma getChannels_lists_each_channel_once_witness :
  NoDup (getChannels sample.two_channels)
  ∧ length (getChannels sample.two_channels) = 2%nat.
Proof.
  destruct (getChannels_lists_each_channel_once (H := sample.platform)
              sample.two_channels two_channels_ok) as (Hnd & Hlen & _).
  split; [exact Hnd|exact Hlen].
Defined.

End TcpFactory_keeps.

(** ** The face table over its lifetime *)

Module FaceTable_more.
Import FaceTable FaceTable_facts.

Local Open Scope Z_scope.

#[local] Arguments add : simpl never.
#[local] Arguments remove : simpl never.

Lemma ids_bounded_new objects forwarder_fib :
  ids_bounded (new objects forwarder_fib).
Proof. split; [done|]. intros faceId face. simpl. by rewrite lookup_empty. Qed.

Lemma face_eta (f : Face) :
  f = mkFace (getId f) (onReceiveInterest f) (onReceiveData f).
Proof. by destruct f. Qed.

Lemma registered_nonempty face s :
  registered face s → size (m_faces s) ≠ 0%nat.
Proof.
  unfold registered. intros Hreg Hsz. apply map_size_empty_iff in Hsz.
  rewrite Hsz in Hreg. by rewrite lookup_empty in Hreg.
Qed.

Section table.
Variable INVALID_FACEID : FaceId.
Variables FaceId_min FaceId_max : FaceId.

Abbreviation increment := (increment FaceId_min FaceId_max).
Abbreviation add := (add FaceId_min FaceId_max).
Abbreviation run := (run INVALID_FACEID FaceId_min FaceId_max).
Abbreviation assigned := (assigned INVALID_FACEID FaceId_min FaceId_max).
Abbreviation well_used := (well_used INVALID_FACEID FaceId_min FaceId_max).

(** Below the greatest id, the id that [add] takes is above every id
    of the table. *)
Lemma ids_bounded_fresh s :
  ids_bounded s → m_lastFaceId s < FaceId_max →
  increment (m_lastFaceId s) = m_lastFaceId s + 1
  ∧ m_faces s !! increment (m_lastFaceId s) = None.
Proof.
  intros [_ Hs] Hroom. rewrite increment_below by done. split; [done|].
  destruct (m_faces s !! (m_lastFaceId s + 1)) eqn:Hl; [|done].
  specialize (Hs _ _ Hl). lia.
Qed.

Lemma ids_bounded_add face s :
  ids_bounded s → m_lastFaceId s < FaceId_max → ids_bounded (add face s).
Proof.
  intros [H0 Hs] Hroom. unfold ids_bounded.
  rewrite add_m_faces, add_lastFaceId, increment_below by done.
  split; [lia|]. intros faceId face'.
  destruct (decide (faceId = m_lastFaceId s + 1)) as [->|Hne].
  - intros _. lia.
  - rewrite lookup_insert_ne; [|done]. intros Hl. specialize (Hs _ _ Hl). lia.
Qed.

Lemma ids_bounded_remove face s :
  ids_bounded s → ids_bounded (remove INVALID_FACEID face s).
Proof.
  intros [H0 Hs]. split; [done|]. intros faceId face'.
  rewrite remove_m_faces, remove_lastFaceId.
  intros Hl. apply lookup_delete_Some in Hl as [_ Hl]. by apply Hs in Hl.
Qed.

Lemma ids_bounded_run ops s :
  ids_bounded s → m_lastFaceId s + Z.of_nat (adds ops) ≤ FaceId_max →
  ids_bounded (run ops s).
Proof.
  revert s. induction ops as [|[face|face] ops IH]; intros s Hs Hroom;
    cbn [FaceTable.run step adds] in *; [done|..]; apply IH.
  - apply ids_bounded_add; [done|lia].
  - rewrite add_lastFaceId, increment_below; lia.
  - by apply ids_bounded_remove.
  - by rewrite remove_lastFaceId.
Qed.

(** X14.  While the counter has room, the ids are consecutive: if the
    [add] calls of a sequence do not take the counter past the
    greatest id, they get, in call order, the ids that follow the
    counter one by one (from a table as constructed: 1, 2, 3, ...),
    and the counter ends that many ids further, whatever was removed
    in between.  From the greatest id the counter goes to the least
    one, which is the id of the next face. *)
Theorem assigned_ids_are_consecutive (ops : list Op) (s : State) :
  m_lastFaceId s + Z.of_nat (adds ops) ≤ FaceId_max →
  assigned ops s = seqZ (m_lastFaceId s + 1) (Z.of_nat (adds ops))
  ∧ m_lastFaceId (run ops s) = m_lastFaceId s + Z.of_nat (adds ops)
  ∧ ∀ face, m_lastFaceId (run ops s) = FaceId_max →
            getId (faces (add face (run ops s)) face) = FaceId_min.
Proof.
  intros Hroom. destruct (assigned_consecutive INVALID_FACEID FaceId_min FaceId_max ops s Hroom)
    as [Ha Hl].
  split; [done|]. split; [done|].
  intros face Hlast. rewrite add_getId, Hlast. apply increment_greatest.
Qed.

(** X15.  [add] never overwrites while the counter has room: on a
    table that was constructed and then used through [add] and
    [remove] only, with fewer [add] calls than the greatest id, the
    id that [add] takes is not in the table, so the table grows by
    one entry, the new id maps to the face, and every entry there was
    is kept. *)
Theorem add_takes_an_unused_id (objects : FacePtr → Face) (forwarder_fib : Fib)
    (ops : list Op) (face : FacePtr) :
  Z.of_nat (adds ops) < FaceId_max →
  let s := run ops (new objects forwarder_fib) in
  let faceId := increment (m_lastFaceId s) in
  faceId = Z.of_nat (adds ops) + 1
  ∧ m_faces s !! faceId = None
  ∧ m_faces (add face s) !! faceId = Some face
  ∧ size (m_faces (add face s)) = S (size (m_faces s))
  ∧ ∀ faceId' face', m_faces s !! faceId' = Some face' →
                     m_faces (add face s) !! faceId' = Some face'.
Proof.
  intros Hroom s faceId.
  destruct (assigned_consecutive INVALID_FACEID FaceId_min FaceId_max ops
              (new objects forwarder_fib)) as [_ Hl];
    [cbn [m_lastFaceId new]; lia|].
  cbn [m_lastFaceId new] in Hl. fold s in Hl.
  assert (ids_bounded s) as Hs.
  { apply ids_bounded_run; [apply ids_bounded_new|].
    cbn [m_lastFaceId new]. lia. }
  destruct (ids_bounded_fresh s Hs) as [Hinc Hfresh]; [lia|].
  fold faceId in Hinc, Hfresh.
  rewrite add_m_faces. fold faceId.
  split; [lia|]. split; [done|]. split; [apply lookup_insert_eq|].
  split; [by apply map_size_insert_None|].
  intros faceId' face' Hl'. rewrite lookup_insert_ne; [done|].
  intros <-. discriminate (eq_trans (eq_sym Hl') Hfresh).
Qed.

(** X16.  Below the greatest id, [add] registers the face and leaves
    the others alone: the face is in the table under its new id, the
    id after the counter; the FIB is as it was; and any other face
    object is untouched and, if it was registered, still is. *)
Theorem add_registers_and_leaves_others (face : FacePtr) (s : State) :
  ids_bounded s →
  m_lastFaceId s < FaceId_max →
  registered face (add face s)
  ∧ getId (faces (add face s) face) = m_lastFaceId s + 1
  ∧ fib (add face s) = fib s
  ∧ ∀ face', face' ≠ face →
             faces (add face s) face' = faces s face'
             ∧ (registered face' s → registered face' (add face s)).
Proof.
  intros Hs Hroom. destruct (ids_bounded_fresh s Hs Hroom) as [Hinc Hfresh].
  unfold registered. rewrite add_getId, add_m_faces.
  split; [apply lookup_insert_eq|]. split; [done|]. split; [done|].
  intros face' Hne. rewrite add_other_face by done. split; [done|].
  intros Hl. rewrite lookup_insert_ne; [done|].
  intros Heq. rewrite <- Heq in Hl.
  discriminate (eq_trans (eq_sym Hl) Hfresh).
Qed.

(** X17.  [remove] of a registered face leaves the others alone: the
    table loses exactly one entry, the counter stays, and any other
    face object is untouched and, if it was registered, still is. *)
Theorem remove_leaves_others (face : FacePtr) (s : State) :
  registered face s →
  size (m_faces s) = S (size (m_faces (remove INVALID_FACEID face s)))
  ∧ m_lastFaceId (remove INVALID_FACEID face s) = m_lastFaceId s
  ∧ ∀ face', face' ≠ face →
             faces (remove INVALID_FACEID face s) face' = faces s face'
             ∧ (registered face' s →
                registered face' (remove INVALID_FACEID face s)).
Proof.
  intros Hreg. pose proof (registered_nonempty _ _ Hreg) as Hsz.
  unfold registered in *. rewrite remove_m_faces.
  split; [|split; [done|]].
  - rewrite map_size_delete_Some by eauto. lia.
  - intros face' Hne. rewrite remove_other_face by done. split; [done|].
    intros Hl. rewrite lookup_delete_ne; [done|].
    intros Heq. rewrite Heq in Hreg.
    apply Hne. by injection (eq_trans (eq_sym Hl) Hreg).
Qed.



(** X20.  A face that is removed and added again has exactly the two
    subscriptions of the forwarder, one for each event, whoever had
    subscribed to it before, and the id that the increment of the
    counter gives. *)
Theorem readded_face_has_one_subscription (face : FacePtr) (s : State) :
  faces (add face (remove INVALID_FACEID face s)) face
  = mkFace (increment (m_lastFaceId s)) [Forwarder_onInterest face]
           [Forwarder_onData face].
Proof.
  destruct (add_subscribes FaceId_min FaceId_max face
              (remove INVALID_FACEID face s)) as [Hi Hd].
  pose proof (add_getId FaceId_min FaceId_max face
                (remove INVALID_FACEID face s)) as Hid.
  rewrite remove_face in Hi, Hd. rewrite remove_lastFaceId in Hid.
  rewrite (face_eta (faces (add face (remove INVALID_FACEID face s)) face)).
  by rewrite Hi, Hd, Hid.
Qed.

(** X21.  [add] does not look whether the face is registered: with
    room for two more ids, adding a face twice gives it a second id
    while the first id still maps to it, subscribes the forwarder a
    second time to each event, and leaves a table that maps an id to
    a face that carries another. *)
Theorem add_twice (face : FacePtr) (s : State) :
  m_lastFaceId s + 1 < FaceId_max →
  let s2 := add face (add face s) in
  getId (faces s2 face) = m_lastFaceId s + 2
  ∧ m_faces s2 !! (m_lastFaceId s + 1) = Some face
  ∧ m_faces s2 !! (m_lastFaceId s + 2) = Some face
  ∧ onReceiveInterest (faces s2 face)
    = onReceiveInterest (faces s face)
      ++ [Forwarder_onInterest face; Forwarder_onInterest face]
  ∧ onReceiveData (faces s2 face)
    = onReceiveData (faces s face)
      ++ [Forwarder_onData face; Forwarder_onData face]
  ∧ ¬ table_ok s2.
Proof.
  intros Hroom s2. subst s2.
  assert (increment (m_lastFaceId s) = m_lastFaceId s + 1) as Hinc
    by (apply increment_below; lia).
  assert (increment (m_lastFaceId s + 1) = m_lastFaceId s + 2) as Hinc'
    by (rewrite increment_below; lia).
  assert (m_faces (add face (add face s)) !! (m_lastFaceId s + 1) = Some face)
    as H1.
  { rewrite !add_m_faces, add_lastFaceId, Hinc, Hinc'.
    rewrite lookup_insert_ne by lia. apply lookup_insert_eq. }
  assert (getId (faces (add face (add face s)) face) = m_lastFaceId s + 2)
    as Hid.
  { by rewrite add_getId, add_lastFaceId, Hinc, Hinc'. }
  split; [done|]. split; [done|]. split; [|split; [|split]].
  - rewrite !add_m_faces, add_lastFaceId, Hinc, Hinc'.
    apply lookup_insert_eq.
  - destruct (add_subscribes FaceId_min FaceId_max face (add face s)) as [-> _].
    destruct (add_subscribes FaceId_min FaceId_max face s) as [-> _].
    by rewrite <- app_assoc.
  - destruct (add_subscribes FaceId_min FaceId_max face (add face s)) as [_ ->].
    destruct (add_subscribes FaceId_min FaceId_max face s) as [_ ->].
    by rewrite <- app_assoc.
  - intros Hok. apply Hok in H1. lia.
Qed.

(** Within the contract the table stays consistent, wherever the
    counter is. *)
Lemma well_used_table_ok ops s :
  table_ok s → well_used ops s → table_ok (run ops s).
Proof.
  revert s. induction ops as [|[face|face] ops IH]; intros s Hok Hw;
    cbn [FaceTable.run step FaceTable.well_used] in *; [done|..];
    destruct Hw as [Hfst Hw]; apply IH; try done.
  - by apply add_table_ok.
  - by apply remove_table_ok.
Qed.

Lemma well_used_size ops s :
  ids_bounded s → m_lastFaceId s + Z.of_nat (adds ops) ≤ FaceId_max →
  well_used ops s →
  (size (m_faces (run ops s)) + removes ops = size (m_faces s) + adds ops)%nat.
Proof.
  revert s. induction ops as [|[face|face] ops IH]; intros s Hb Hroom Hw;
    cbn [FaceTable.run step adds removes FaceTable.well_used] in *.
  - lia.
  - destruct Hw as [Hnew Hw].
    destruct (ids_bounded_fresh s Hb) as [Hinc Hfresh]; [lia|].
    assert (ids_bounded (add face s)) as Hb'
      by (apply ids_bounded_add; [done|lia]).
    specialize (IH (add face s) Hb').
    rewrite add_lastFaceId, Hinc, add_m_faces in IH.
    rewrite map_size_insert_None in IH by done.
    assert (m_lastFaceId s + 1 + Z.of_nat (adds ops) ≤ FaceId_max) as Hroom'
      by lia.
    specialize (IH Hroom' Hw). lia.
  - destruct Hw as [Hreg Hw].
    pose proof (registered_nonempty _ _ Hreg) as Hsz.
    specialize (IH (remove INVALID_FACEID face s)
                  (ids_bounded_remove face s Hb)).
    rewrite remove_lastFaceId, remove_m_faces in IH.
    rewrite map_size_delete_Some in IH by (unfold registered in Hreg; eauto).
    specialize (IH Hroom Hw). lia.
Qed.

(** X22.  Used within its contract (only faces that the table does
    not hold are added, only registered faces are removed), a table
    as constructed stays consistent, each id mapping to the face that
    carries it; and while the [add] calls are no more than the
    greatest id, it holds as many faces as were added and not
    removed. *)
Theorem well_used_table_is_consistent (objects : FacePtr → Face)
    (forwarder_fib : Fib) (ops : list Op) :
  well_used ops (new objects forwarder_fib) →
  table_ok (run ops (new objects forwarder_fib))
  ∧ (Z.of_nat (adds ops) ≤ FaceId_max →
     (size (m_faces (run ops (new objects forwarder_fib))) + removes ops
      = adds ops)%nat).
Proof.
  intros Hw. split.
  - apply well_used_table_ok; [|done].
    intros faceId face. simpl. by rewrite lookup_empty.
  - intros Hroom.
    rewrite (well_used_size ops (new objects forwarder_fib));
      [|apply ids_bounded_new|cbn [m_lastFaceId new]; lia|done].
    simpl. by rewrite map_size_empty.
Qed.

End table.

Lemma one_face_bounded : ids_bounded sample.one_face.
Proof.
  apply ids_bounded_add; [apply ids_bounded_new|].
  cbn [m_lastFaceId new]. unfold sample.int_max. lia.
Qed.

Lemma one_face_counter : m_lastFaceId sample.one_face = 1.
Proof. reflexivity. Qed.

Lemma assigned_ids_are_consecutive_witness :
  assigned (-1) sample.int_min sample.int_max
           [Add 1%nat; Remove 0%nat; Add 0%nat] sample.one_face
  = [2; 3].
Proof.
  destruct (assigned_ids_are_consecutive (-1) sample.int_min sample.int_max
              [Add 1%nat; Remove 0%nat; Add 0%nat] sample.one_face)
    as (Ha & _).
  - rewrite one_face_counter. unfold sample.int_max. simpl. lia.
  - exact Ha.
Defined.

Lemma add_takes_an_unused_id_witness :
  size (m_faces (add sample.int_min sample.int_max 2%nat
                   (run (-1) sample.int_min sample.int_max
                      [Add 0%nat; Add 1%nat; Remove 0%nat]
                      (new (λ _, sample.created) sample.fib0))))
  = 2%nat.
Proof.
  destruct (add_takes_an_unused_id (-1) sample.int_min sample.int_max
              (λ _, sample.created) sample.fib0
              [Add 0%nat; Add 1%nat; Remove 0%nat] 2%nat)
    as (_ & _ & _ & Hsz & _).
  - reflexivity.
  - rewrite Hsz. reflexivity.
Defined.

Lemma add_registers_and_leaves_others_witness :
  registered 1%nat (add sample.int_min sample.int_max 1%nat sample.one_face)
  ∧ getId (faces (add sample.int_min sample.int_max 1%nat sample.one_face)
             1%nat) = 2.
Proof.
  destruct (add_registers_and_leaves_others sample.int_min sample.int_max
              1%nat sample.one_face one_face_bounded) as (Hr & Hid & _).
  - reflexivity.
  - split; [exact Hr|exact Hid].
Defined.

Lemma remove_leaves_others_witness :
  m_lastFaceId (remove (-1) 0%nat sample.one_face) = 1.
Proof.
  destruct (remove_leaves_others (-1) 0%nat sample.one_face eq_refl)
    as (_ & Hl & _).
  exact Hl.
Defined.



Lemma add_twice_witness :
  getId (faces (add sample.int_min sample.int_max 0%nat sample.one_face)
           0%nat) = 2
  ∧ m_faces (add sample.int_min sample.int_max 0%nat sample.one_face) !! 1
    = Some 0%nat.
Proof.
  destruct (add_twice sample.int_min sample.int_max 0%nat
              (new (λ _, sample.created) sample.fib0))
    as (Hid & H1 & _).
  - reflexivity.
  - split; [exact Hid|exact H1].
Defined.

Lemma sample_sequence_well_used :
  well_used (-1) sample.int_min sample.int_max
            [Add 0%nat; Add 1%nat; Remove 0%nat]
            (new (λ _, sample.created) sample.fib0).
Proof.
  cbn [well_used]. split; [|split; [|split]]; try done.
  intros faceId Hl. simpl in Hl.
  apply lookup_insert_Some in Hl as [[_ [=]]|[_ Hl]].
  by rewrite lookup_empty in Hl.
Qed.

Lemma well_used_table_is_consistent_witness :
  table_ok (run (-1) sample.int_min sample.int_max
              [Add 0%nat; Add 1%nat; Remove 0%nat]
              (new (λ _, sample.created) sample.fib0)).
Proof.
  exact (proj1 (well_used_table_is_consistent (-1) sample.int_min
                  sample.int_max (λ _, sample.created)
                  sample.fib0 [Add 0%nat; Add 1%nat; Remove 0%nat]
                  sample_sequence_well_used)).
Defined.

End FaceTable_more.
